(** * babyai/multienv/multienv.py: the head / multi-environment protocol

    A shallow embedding of [recv_conns], [MultiEnvHead] and [MultiEnv].

    Conventions of the embedding.
    - Numbers (rewards, returns, weights) are rationals [Q]: numpy's floats
      are idealised, so [numpy.mean] is an exact quotient.
    - A [multiprocessing.Pipe] is a pair of queues, one per direction; a
      connection end reads from one and writes to the other.
    - Python methods are computations [M S A] over the object's state [S]:
      they return, raise, or block, and in every case leave behind the state
      as mutated so far. *)

From Equations Require Import Equations.
From stdpp Require Import gmap list fin_maps.
From Stdlib Require Import QArith.
Close Scope Q_scope.

Set Default Proof Using "Type".

(** ** Outcomes of a call *)

Inductive exn : Type :=
| KeyError | IndexError | ValueError | TypeError | RecursionError.

Inductive outcome (A : Type) : Type :=
| Ok (a : A)
| Raised (e : exn)
| Blocked.
Arguments Ok {A} a.
Arguments Raised {A} e.
Arguments Blocked {A}.

Definition M (S A : Type) : Type := S → S * outcome A.

Definition ret {S A} (a : A) : M S A := λ s, (s, Ok a).

Definition bind {S A B} (c : M S A) (k : A → M S B) : M S B :=
  λ s, match c s with
       | (s', Ok a) => k a s'
       | (s', Raised e) => (s', Raised e)
       | (s', Blocked) => (s', Blocked)
       end.

Definition raise {S A} (e : exn) : M S A := λ s, (s, Raised e).
Definition gets {S A} (f : S → A) : M S A := λ s, (s, Ok (f s)).
Definition modify {S} (f : S → S) : M S unit := λ s, (f s, Ok tt).

Declare Scope py_scope.
Delimit Scope py_scope with py.
Notation "x <- c ;; k" := (bind c (λ x, k))
  (at level 100, c at next level, right associativity) : py_scope.
Notation "c ;;; k" := (bind c (λ _, k))
  (at level 100, right associativity) : py_scope.

(** [for x in l: body x] *)
Fixpoint for_each {S A} (l : list A) (body : A → M S unit) : M S unit :=
  match l with
  | [] => ret tt
  | x :: l' => bind (body x) (λ _, for_each l' body)
  end.

(** ** Connections and the drain primitive *)

(** The inbound side of a list of connections: for each connection the
    messages sent to it and not yet received, oldest first. *)
Abbreviation conns A := (list (list A)).

Section Drain.
Context {A : Type}.
Local Abbreviation conns := (conns A).

Definition pending (cs : conns) : nat := length (concat cs).

Fixpoint wait_from (i : nat) (cs : conns) : list nat :=
  match cs with
  | [] => []
  | q :: cs' =>
      match q with
      | [] => wait_from (S i) cs'
      | _ :: _ => i :: wait_from (S i) cs'
      end
  end.

(** [mp.connection.wait(conns, timeout=.0)]: the connections that have a
    message ready, reported in the order they were given. *)
Definition wait (cs : conns) : list nat := wait_from 0 cs.

(** [r.recv()]: takes the oldest message of connection [r]; on a
    connection with nothing to read the call blocks ([None]). *)
Definition recv (r : nat) (cs : conns) : option (A * conns) :=
  match cs !! r with
  | Some (m :: q) => Some (m, <[r := q]> cs)
  | _ => None
  end.

(** [for r in wconns: data.append(r.recv())] *)
Fixpoint recv_each (wconns : list nat) (cs : conns) (data : list A)
  : option (list A * conns) :=
  match wconns with
  | [] => Some (data, cs)
  | r :: rs =>
      match recv r cs with
      | Some (m, cs') => recv_each rs cs' (data ++ [m])
      | None => None
      end
  end.

Lemma recv_pending r cs m cs' :
  recv r cs = Some (m, cs') → S (pending cs') = pending cs.
Proof.
  unfold recv, pending. destruct (cs !! r) as [[|x q]|] eqn:E; try done.
  intros [= <- <-]. revert r E.
  induction cs as [|q0 cs IH]; intros [|r] E; simplify_eq/=.
  - rewrite ?length_app; simpl; lia.
  - specialize (IH _ E). rewrite !length_app, <- IH. simpl. lia.
Qed.

Lemma recv_each_pending wconns : ∀ cs data data' cs',
  recv_each wconns cs data = Some (data', cs') →
  pending cs' + length wconns = pending cs.
Proof.
  induction wconns as [|r rs IH]; simpl; intros cs data data' cs'.
  - intros [= _ <-]. lia.
  - destruct (recv r cs) as [[m cs1]|] eqn:E; [|done].
    intros H. apply IH in H. apply recv_pending in E. lia.
Qed.

(** A value together with the equation that names it, so that the loop's
    termination argument can use what the body returned. *)
Definition inspect {B} (b : B) : {b' | b = b'} := exist _ b eq_refl.

(** The [while len(wconns) > 0] loop. *)
Equations? recv_loop (cs : conns) (data : list A)
  : option (list A * conns) by wf (pending cs) lt :=
  recv_loop cs data with inspect (wait cs) := {
    | exist _ [] _ => Some (data, cs)
    | exist _ (r :: rs) _ with inspect (recv_each (r :: rs) cs data) := {
        | exist _ (Some (data', cs')) Hr => recv_loop cs' data'
        | exist _ None _ => None } }.
Proof. apply recv_each_pending in Hr. simpl in Hr. lia. Qed.

(** [recv_conns(conns)]: the data received, and the connections after. *)
Definition recv_conns (cs : conns) : option (list A * conns) :=
  recv_loop cs [].

(** [drains cs ms cs']: receiving the messages [ms] one at a time, each the
    oldest message of some connection, leads from [cs] to [cs']. *)
Inductive drains : conns → list A → conns → Prop :=
| drains_nil cs : drains cs [] cs
| drains_cons cs r m q ms cs' :
    cs !! r = Some (m :: q) →
    drains (<[r := q]> cs) ms cs' →
    drains cs (m :: ms) cs'.

(** Messages labelled with the connection they travel on. *)
Definition labelled (tag : A → nat) (cs : conns) : Prop :=
  ∀ i q, cs !! i = Some q → Forall (λ m, tag m = i) q.

End Drain.

(** ** Numbers *)

(** [numpy.ones(n) / n] *)
Definition uniform (n : nat) : list Q :=
  (λ x, x / inject_Z (Z.of_nat n))%Q <$> replicate n 1%Q.

Definition sum_list (l : list Q) : Q := foldr Qplus 0%Q l.

(** [numpy.mean(l)] *)
Definition mean (l : list Q) : Q :=
  (sum_list l / inject_Z (Z.of_nat (length l)))%Q.

(** [l[-k:]]: the last [k] items of [l], all of [l] when it has fewer; since
    [-0] is [0], [l[-0:]] is all of [l] too. *)
Definition slice_last {A} (k : nat) (l : list A) : list A :=
  match k with
  | 0 => l
  | S _ => drop (length l - k) l
  end.

(** ** Pipes *)

(** One [mp.Pipe()] between the head (end [local]) and a multi-environment
    (end [remote], its [head_conn]): [to_head] holds the [(env_id, return)]
    messages sent by the multi-environment and not yet received by the head,
    [to_menv] the distributions sent by the head and not yet received. *)
Record Pipe : Type := mkPipe {
  to_head : list (nat * Q);
  to_menv : list (list Q)
}.

Definition set_to_head (q : list (nat * Q)) (p : Pipe) : Pipe :=
  mkPipe q (to_menv p).
Definition set_to_menv (q : list (list Q)) (p : Pipe) : Pipe :=
  mkPipe (to_head p) q.

(** ** The head *)

Module MultiEnvHead.

(** [compute_dist], when given, is a function from the synthesized returns
    to a distribution; it is called as it is and its result is not checked. *)
Record t : Type := mk {
  num_menvs : nat;
  num_envs : nat;
  compute_dist : option (gmap nat Q → list Q);
  (** [self.locals]; [self.remotes] are the other ends of the same pipes *)
  locals : list Pipe;
  returns : gmap nat (list Q);
  dist : list Q;
  synthesized_returns : gmap nat Q
}.

Definition set_locals (f : list Pipe → list Pipe) (s : t) : t :=
  mk (num_menvs s) (num_envs s) (compute_dist s) (f (locals s))
     (returns s) (dist s) (synthesized_returns s).
Definition set_returns (f : gmap nat (list Q) → gmap nat (list Q)) (s : t)
  : t :=
  mk (num_menvs s) (num_envs s) (compute_dist s) (locals s)
     (f (returns s)) (dist s) (synthesized_returns s).
Definition set_dist (d : list Q) (s : t) : t :=
  mk (num_menvs s) (num_envs s) (compute_dist s) (locals s)
     (returns s) d (synthesized_returns s).
Definition set_synthesized_returns (m : gmap nat Q) (s : t) : t :=
  mk (num_menvs s) (num_envs s) (compute_dist s) (locals s)
     (returns s) (dist s) m.

Local Open Scope py_scope.

(** [self.locals, self.remotes] are unpacked from the unzipped list of
    [num_menvs] fresh pipes; with no pipe at all the unzipped list is
    empty and there is nothing to unpack. *)
Definition _init_connections : M t unit :=
  n <- gets num_menvs ;;
  match n with
  | 0 => raise ValueError
  | S _ => modify (set_locals (λ _, replicate n (mkPipe [] [])))
  end.

Definition _trim_returns : M t unit :=
  n <- gets num_menvs ;;
  modify (set_returns (fmap (slice_last n))).

(** [recv_conns(self.locals)] *)
Definition recv_locals : M t (list (nat * Q)) :=
  λ s, match recv_conns (to_head <$> locals s) with
       | Some (data, cs) =>
           (set_locals (zip_with set_to_head cs) s, Ok data)
       | None => (s, Blocked)
       end.

(** [self.returns[env_id].append(returnn)] *)
Definition append_return (m : nat * Q) : M t unit :=
  r <- gets returns ;;
  match r !! m.1 with
  | Some l => modify (set_returns <[m.1 := l ++ [m.2]]>)
  | None => raise KeyError
  end.

Definition _recv_returns : M t unit :=
  data <- recv_locals ;;
  for_each data append_return.

Definition _synthesize_returns : M t unit :=
  r <- gets returns ;;
  modify (set_synthesized_returns
            (omap (λ returnn, match returnn with
                              | [] => None
                              | _ :: _ => Some (mean returnn)
                              end) r)).

(** [local.send(d)] *)
Definition send (d : list Q) (local : Pipe) : Pipe :=
  set_to_menv (to_menv local ++ [d]) local.

(** [local.send(self.dist)], for the local end at position [i] *)
Definition send_dist_on (i : nat) : M t unit :=
  d <- gets dist ;;
  modify (set_locals (alter (send d) i)).

Definition _send_dist : M t unit :=
  ls <- gets locals ;;
  for_each (seq 0 (length ls)) send_dist_on.

Definition update_dist : M t unit :=
  _recv_returns ;;;
  _synthesize_returns ;;;
  _trim_returns ;;;
  cd <- gets compute_dist ;;
  match cd with
  | Some f => sr <- gets synthesized_returns ;; modify (set_dist (f sr))
  | None => ret tt
  end ;;;
  _send_dist.

(** The object before [__init__] has set any attribute. *)
Definition blank (num_menvs num_envs : nat)
    (compute_dist : option (gmap nat Q → list Q)) : t :=
  mk num_menvs num_envs compute_dist [] ∅ [] ∅.

Definition init_body : M t unit :=
  _init_connections ;;;
  n <- gets num_menvs ;;
  k <- gets num_envs ;;
  modify (set_returns (λ _,
    list_to_map ((λ env_id, (env_id, replicate n 0%Q)) <$> seq 0 k))) ;;;
  modify (set_dist (uniform k)) ;;;
  update_dist.

Definition __init__ (num_menvs num_envs : nat)
    (compute_dist : option (gmap nat Q → list Q)) : t * outcome unit :=
  init_body (blank num_menvs num_envs compute_dist).

(** *** What the multi-environments do at the other ends *)

(** [remotes[i].send(m)] *)
Definition remote_send (i : nat) (m : nat * Q) (s : t) : t :=
  set_locals (alter (λ p, set_to_head (to_head p ++ [m]) p) i) s.

(** [remotes[i].recv()], when a distribution is there to read *)
Definition remote_recv (i : nat) (s : t) : t :=
  set_locals (alter (λ p, set_to_menv (tail (to_menv p)) p) i) s.

(** The states of a head constructed as
    [MultiEnvHead(num_menvs, num_envs, compute_dist)]: the one [__init__]
    returns, then any interleaving of returned [update_dist] calls with
    traffic at the remote ends. *)
Inductive reachable (num_menvs num_envs : nat)
    (compute_dist : option (gmap nat Q → list Q)) : t → Prop :=
| reach_init s :
    __init__ num_menvs num_envs compute_dist = (s, Ok tt) →
    reachable num_menvs num_envs compute_dist s
| reach_update_dist s s' :
    reachable num_menvs num_envs compute_dist s →
    update_dist s = (s', Ok tt) →
    reachable num_menvs num_envs compute_dist s'
| reach_remote_send s i m :
    reachable num_menvs num_envs compute_dist s →
    reachable num_menvs num_envs compute_dist (remote_send i m s)
| reach_remote_recv s i :
    reachable num_menvs num_envs compute_dist s →
    reachable num_menvs num_envs compute_dist (remote_recv i s).

(** *** Vocabulary for the properties *)

(** The returns for task [i] among the messages [data], in order. *)
Definition received (i : nat) (data : list (nat * Q)) : list Q :=
  (filter (λ m, m.1 = i) data).*2.

(** [m] names a task the head keeps a history for. *)
Definition known (s : t) (m : nat * Q) : Prop := is_Some (returns s !! m.1).

#[global] Instance known_dec s m : Decision (known s m).
Proof. unfold known. apply _. Defined.

(** The invariant of the head. *)
Definition inv (s : t) : Prop :=
  1 ≤ num_menvs s
  ∧ (∀ i, is_Some (returns s !! i) ↔ i < num_envs s)
  ∧ (∀ i h, returns s !! i = Some h → length h = num_menvs s)
  ∧ (∀ i, is_Some (synthesized_returns s !! i) ↔ i < num_envs s)
  ∧ match compute_dist s with
    | Some f => dist s = f (synthesized_returns s)
    | None => dist s = uniform (num_envs s)
    end.

End MultiEnvHead.

(** ** A multi-environment *)

Module MultiEnv.
Section WithCollaborators.

(** The collaborators: the environments ([reset], [step]) and numpy's
    random generator. [choice g n p] is [rng.choice(range(n), p=p)] on a
    generator in state [g]: the index drawn and the generator's next
    state, or nothing when numpy rejects [p]. *)
Context {Env Obs Action Info RNG : Type}.
Variable env_reset : Env → Env * Obs.
Variable env_step : Env → Action → Env * (Obs * Q * bool * Info).
Variable choice : RNG → nat → list Q → option (nat * RNG).

(** Attributes assigned after construction starts are optional: [None]
    until the first assignment. [env] refers to an item of [envs] (the
    same object, not a copy), so it is kept as its position. *)
Record t : Type := mk {
  envs : list Env;
  head_conn : Pipe;
  rng : RNG;
  num_envs : nat;
  returnn : option Q;
  dist : option (list Q);
  env_id : option nat;
  env : option nat
}.

Definition set_envs (f : list Env → list Env) (s : t) : t :=
  mk (f (envs s)) (head_conn s) (rng s) (num_envs s) (returnn s) (dist s)
     (env_id s) (env s).
Definition set_head_conn (f : Pipe → Pipe) (s : t) : t :=
  mk (envs s) (f (head_conn s)) (rng s) (num_envs s) (returnn s) (dist s)
     (env_id s) (env s).
Definition set_rng (g : RNG) (s : t) : t :=
  mk (envs s) (head_conn s) g (num_envs s) (returnn s) (dist s)
     (env_id s) (env s).
Definition set_returnn (r : option Q) (s : t) : t :=
  mk (envs s) (head_conn s) (rng s) (num_envs s) r (dist s)
     (env_id s) (env s).
Definition set_dist (d : option (list Q)) (s : t) : t :=
  mk (envs s) (head_conn s) (rng s) (num_envs s) (returnn s) d
     (env_id s) (env s).
Definition set_env_id (i : option nat) (s : t) : t :=
  mk (envs s) (head_conn s) (rng s) (num_envs s) (returnn s) (dist s)
     i (env s).
Definition set_env (i : option nat) (s : t) : t :=
  mk (envs s) (head_conn s) (rng s) (num_envs s) (returnn s) (dist s)
     (env_id s) i.

Local Open Scope py_scope.

(** Reading an attribute. One that was never assigned goes to
    [__getattr__], which reads [self.env]; in every state where an
    attribute is missing [self.env] is missing as well, and the lookup
    recurses until Python gives up. *)
Definition attr {A} (f : t → option A) : M t A :=
  λ s, match f s with
       | Some a => (s, Ok a)
       | None => (s, Raised RecursionError)
       end.

(** [self.envs[i]] *)
Definition envs_at (i : nat) : M t Env :=
  λ s, match envs s !! i with
       | Some e => (s, Ok e)
       | None => (s, Raised IndexError)
       end.

(** [recv_conns([self.head_conn])] *)
Definition recv_head_conn : M t (list (list Q)) :=
  λ s, match recv_conns [to_menv (head_conn s)] with
       | Some (data, [q]) => (set_head_conn (set_to_menv q) s, Ok data)
       | _ => (s, Blocked)
       end.

Definition _recv_dist : M t unit :=
  data <- recv_head_conn ;;
  match last data with
  | Some d => modify (set_dist (Some d))
  | None => ret tt
  end.

Definition _select_env : M t unit :=
  _recv_dist ;;;
  g <- gets rng ;;
  n <- gets num_envs ;;
  p <- attr dist ;;
  match choice g n p with
  | None => raise ValueError
  | Some (i, g') =>
      modify (set_rng g') ;;;
      modify (set_env_id (Some i)) ;;;
      _ <- envs_at i ;;
      modify (set_env (Some i))
  end.

Definition _send_return : M t unit :=
  r <- gets returnn ;;
  match r with
  | Some r =>
      i <- attr env_id ;;
      modify (set_head_conn (λ p, set_to_head (to_head p ++ [(i, r)]) p))
  | None => ret tt
  end.

Definition step (action : Action) : M t (Obs * Q * bool * Info) :=
  i <- attr env ;;
  e <- envs_at i ;;
  let '(e', (obs, reward, done, info)) := env_step e action in
  modify (set_envs <[i := e']>) ;;;
  r <- gets returnn ;;
  match r with
  | None => raise TypeError
  | Some r =>
      modify (set_returnn (Some (r + reward)%Q)) ;;;
      ret (obs, reward, done, info)
  end.

Definition reset : M t Obs :=
  _send_return ;;;
  modify (set_returnn (Some 0%Q)) ;;;
  _select_env ;;;
  i <- attr env ;;
  e <- envs_at i ;;
  let '(e', obs) := env_reset e in
  modify (set_envs <[i := e']>) ;;;
  ret obs.

(** [MultiEnv(envs, head_conn, seed)]; [g] is [RandomState(seed)]. *)
Definition __init__ (envs : list Env) (head_conn : Pipe) (g : RNG)
  : t * outcome Obs :=
  reset (mk envs head_conn g (length envs) None None None None).

(** [render(mode)]: what the current environment renders. *)
Context {Mode Frame : Type}.
Variable env_render : Env → Mode → Env * Frame.

Definition render (mode : Mode) : M t Frame :=
  i <- attr env ;;
  e <- envs_at i ;;
  let '(e', frame) := env_render e mode in
  modify (set_envs <[i := e']>) ;;;
  ret frame.

(** *** Vocabulary for the properties *)

(** The message a [reset] call sends to the head, if any. *)
Definition sent_on_reset (w : t) : list (nat * Q) :=
  match returnn w, env_id w with
  | Some r, Some i => [(i, r)]
  | _, _ => []
  end.

(** The reward in what [env.step] returns. *)
Definition reward_of (x : Env * (Obs * Q * bool * Info)) : Q := x.2.1.1.2.

(** The rewards the environment [e] yields along [actions]. *)
Fixpoint rewards_of (e : Env) (actions : list Action) : list Q :=
  match actions with
  | [] => []
  | a :: actions' =>
      reward_of (env_step e a) :: rewards_of (env_step e a).1 actions'
  end.

(** [for a in actions: self.step(a)] *)
Definition steps (actions : list Action) : M t unit :=
  for_each actions (λ a, bind (step a) (λ _, ret tt)).

(** [local.send(d)], seen from the remote end *)
Definition head_send (d : list Q) (w : t) : t :=
  set_head_conn (λ p, set_to_menv (to_menv p ++ [d]) p) w.

(** [local.recv()], seen from the remote end, when a return is there *)
Definition head_recv (w : t) : t :=
  set_head_conn (λ p, set_to_head (tail (to_head p)) p) w.

(** The states of a multi-environment: the one [__init__] returns, then
    any interleaving of returned [step], [reset] and [render] calls with
    traffic at the head's end of the pipe. *)
Inductive reachable : t → Prop :=
| reach_init envs0 hc g w obs :
    __init__ envs0 hc g = (w, Ok obs) → reachable w
| reach_step w a w' x :
    reachable w → step a w = (w', Ok x) → reachable w'
| reach_reset w w' obs :
    reachable w → reset w = (w', Ok obs) → reachable w'
| reach_render w mode w' frame :
    reachable w → render mode w = (w', Ok frame) → reachable w'
| reach_head_send w d :
    reachable w → reachable (head_send d w)
| reach_head_recv w :
    reachable w → reachable (head_recv w).

(** A multi-environment in the middle of an episode: it has a return so
    far, a distribution, and a current environment, which is the item of
    [envs] at [env_id]; [num_envs] is the number of environments. *)
Definition running (w : t) : Prop :=
  ∃ i e r d,
    env w = Some i ∧ env_id w = Some i ∧ envs w !! i = Some e
    ∧ returnn w = Some r ∧ dist w = Some d
    ∧ num_envs w = length (envs w).

(** The distribution a [reset] call samples from: the newest one waiting,
    else the one held. *)
Definition active (w : t) : option (list Q) :=
  match last (to_menv (head_conn w)) with
  | Some d => Some d
  | None => dist w
  end.

End WithCollaborators.
End MultiEnv.

(** ** Scripted collaborators and scenarios *)

Module Scripted.

(** An environment that plays back a list of rewards. Its state is what is
    left to play, its observation how much is left, and the episode is done
    when nothing is. *)
Definition env_reset (e : list Q) : list Q * nat := (e, length e).

Definition env_step (e : list Q) (_ : unit)
  : list Q * (nat * Q * bool * unit) :=
  (tail e,
   (length (tail e), default 0%Q (head e),
    match tail e with [] => true | _ :: _ => false end, tt)).

Fixpoint first_positive (p : list Q) : option nat :=
  match p with
  | [] => None
  | x :: p' => if Qle_bool x 0 then S <$> first_positive p' else Some 0
  end.

(** A generator that draws the first task of positive weight and counts its
    draws; it rejects weights that are not one per task or are all zero. *)
Definition choice (g n : nat) (p : list Q) : option (nat * nat) :=
  if decide (length p = n) then (λ i, (i, S g)) <$> first_positive p
  else None.

(** A scoring function: all the weight on task [k] once it has a
    synthesized return, the uniform distribution until then. *)
Definition prefer (k n : nat) (sr : gmap nat Q) : list Q :=
  match sr !! k with
  | Some _ => (λ i, if decide (i = k) then 1%Q else 0%Q) <$> seq 0 n
  | None => uniform n
  end.

(** A head for two multi-environments and four tasks, without a scoring
    function: as constructed, then with a return for task 3 sent from each
    remote end, then after the next [update_dist]. *)
Definition head0 : MultiEnvHead.t := (MultiEnvHead.__init__ 2 4 None).1.
Definition head1 : MultiEnvHead.t :=
  MultiEnvHead.remote_send 0 (3, 10%Q)
    (MultiEnvHead.remote_send 1 (3, 4%Q) head0).
Definition head2 : MultiEnvHead.t := (MultiEnvHead.update_dist head1).1.

(** The same with the scoring function [prefer 3 4]. *)
Definition phead0 : MultiEnvHead.t :=
  (MultiEnvHead.__init__ 2 4 (Some (prefer 3 4))).1.
Definition phead1 : MultiEnvHead.t :=
  MultiEnvHead.remote_send 0 (3, 10%Q) phead0.
Definition phead2 : MultiEnvHead.t := (MultiEnvHead.update_dist phead1).1.

(** A multi-environment over two scripted tasks, constructed when the
    distributions [[1; 0]] then [[0; 1]] are waiting on its connection. *)
Definition menv0 : MultiEnv.t :=
  (MultiEnv.__init__ env_reset choice [[5]; [1; 2; 3]]%Q
     (mkPipe [] [[1; 0]; [0; 1]]%Q) 0).1.

(** Rendering the scripted environment shows how much is left to play. *)
Definition env_render (e : list Q) (_ : unit) : list Q * nat := (e, length e).

(** [head0] with a return for task 3 and then one for a task 9 it does not
    have, both sent from the first remote end. *)
Definition head_bad : MultiEnvHead.t :=
  MultiEnvHead.remote_send 0 (9, 1%Q)
    (MultiEnvHead.remote_send 0 (3, 10%Q) head0).

(** A multi-environment over four scripted tasks that has run an episode
    of task 1 with return 6, on the pipe [p]. *)
Definition menv_on (p : Pipe) : MultiEnv.t :=
  MultiEnv.mk [[1]; [2]; [3]; [4; 5]]%Q p 0 4
    (Some 6%Q) (Some (uniform 4)) (Some 1) (Some 1).

End Scripted.

(** * Properties *)

Example recv_conns_ex :
  recv_conns [[1; 2; 3]; []; [4; 5]] = Some ([1; 4; 2; 5; 3], [[]; []; []]).
Proof. vm_compute. reflexivity. Qed.

Example head_init_ex :
  let s := (MultiEnvHead.__init__ 2 3 None).1 in
  (MultiEnvHead.returns s !! 1, MultiEnvHead.dist s,
   MultiEnvHead.synthesized_returns s !! 2, MultiEnvHead.locals s)
  = (Some [0; 0], [1 # 3; 1 # 3; 1 # 3], Some (0 # 2),
     [mkPipe [] [[1 # 3; 1 # 3; 1 # 3]]; mkPipe [] [[1 # 3; 1 # 3; 1 # 3]]])%Q.
Proof. vm_compute. reflexivity. Qed.

Lemma bind_Ok {S A B} (c : M S A) (k : A → M S B) (s s' : S) (a : A) :
  c s = (s', Ok a) → bind c k s = k a s'.
Proof. unfold bind. by intros ->. Qed.

(** ** What a drain returns *)

Section DrainFacts.
Context {A : Type}.
Implicit Types (cs : conns A) (data ms : list A).

Lemma drains_app cs1 ms1 cs2 ms2 cs3 :
  drains cs1 ms1 cs2 → drains cs2 ms2 cs3 → drains cs1 (ms1 ++ ms2) cs3.
Proof.
  induction 1 as [|cs r m q ms cs' Hr _ IH]; simpl; [done|].
  intros H. eapply drains_cons; eauto.
Qed.

Lemma drains_length cs ms cs' : drains cs ms cs' → length cs' = length cs.
Proof.
  induction 1 as [|cs r m q ms cs' _ _ IH]; [done|].
  by rewrite IH, length_insert.
Qed.

Lemma concat_insert_head cs r m q :
  cs !! r = Some (m :: q) → concat cs ≡ₚ m :: concat (<[r := q]> cs).
Proof.
  revert r. induction cs as [|q0 cs IH]; intros [|r] E; simplify_eq/=.
  - done.
  - rewrite (IH _ E). by rewrite Permutation_middle.
Qed.

Lemma drains_Permutation cs ms cs' :
  drains cs ms cs' → concat cs ≡ₚ ms ++ concat cs'.
Proof.
  induction 1 as [|cs r m q ms cs' Hr _ IH]; [done|].
  rewrite (concat_insert_head _ _ _ _ Hr), IH. done.
Qed.

Lemma labelled_insert_tail tag cs r m q :
  labelled tag cs → cs !! r = Some (m :: q) → labelled tag (<[r := q]> cs).
Proof.
  intros Hl Hr i q'. destruct (decide (i = r)) as [->|Hne].
  - rewrite list_lookup_insert_eq by (by eapply lookup_lt_Some).
    intros [= <-]. specialize (Hl _ _ Hr). by inversion Hl.
  - rewrite list_lookup_insert_ne by done. apply Hl.
Qed.

Lemma drains_project tag cs ms cs' i :
  drains cs ms cs' → labelled tag cs →
  filter (λ m, tag m = i) ms ++ default [] (cs' !! i) = default [] (cs !! i).
Proof.
  induction 1 as [|cs r m q ms cs' Hr _ IH]; intros Hl; [done|].
  specialize (IH (labelled_insert_tail _ _ _ _ _ Hl Hr)).
  assert (tag m = r) as Hm.
  { specialize (Hl _ _ Hr). by inversion Hl. }
  destruct (decide (i = r)) as [->|Hne].
  - rewrite filter_cons_True by done.
    rewrite list_lookup_insert_eq in IH by (by eapply lookup_lt_Some).
    rewrite Hr. simpl in *. by rewrite IH.
  - rewrite filter_cons_False by congruence.
    by rewrite list_lookup_insert_ne in IH.
Qed.

Lemma recv_drains r cs m cs' :
  recv r cs = Some (m, cs') → drains cs [m] cs'.
Proof.
  unfold recv. destruct (cs !! r) as [[|x q]|] eqn:E; try done.
  intros [= <- <-]. eapply drains_cons; [done|constructor].
Qed.

Lemma recv_each_drains wconns : ∀ cs data data' cs',
  recv_each wconns cs data = Some (data', cs') →
  ∃ ms, data' = data ++ ms ∧ drains cs ms cs'.
Proof.
  induction wconns as [|r rs IH]; simpl; intros cs data data' cs'.
  - intros [= <- <-]. exists []. split; [by rewrite app_nil_r|constructor].
  - destruct (recv r cs) as [[m cs1]|] eqn:E; [|done].
    intros (ms & -> & Hd)%IH. exists (m :: ms). split.
    + by rewrite <- app_assoc.
    + apply recv_drains in E. by apply (drains_app _ [m] _ ms _ E).
Qed.

(** One round of the loop never blocks: every connection reported by
    [wait] has a message. *)
Lemma recv_each_wait_from qs : ∀ pre data,
  recv_each (wait_from (length pre) qs) (pre ++ qs) data
  = Some (data ++ omap head qs, pre ++ (tail <$> qs)).
Proof.
  induction qs as [|q qs IH]; intros pre data; simpl.
  - by rewrite !app_nil_r.
  - destruct q as [|m q]; simpl.
    + specialize (IH (pre ++ [[]]) data).
      rewrite length_app, Nat.add_1_r, <- !app_assoc in IH. done.
    + unfold recv. rewrite list_lookup_middle by done.
      rewrite insert_app_r_alt, Nat.sub_diag by done. simpl.
      specialize (IH (pre ++ [q]) (data ++ [m])).
      rewrite length_app, Nat.add_1_r, <- !app_assoc in IH. done.
Qed.

Lemma recv_each_wait cs data :
  recv_each (wait cs) cs data = Some (data ++ omap head cs, tail <$> cs).
Proof. apply (recv_each_wait_from cs []). Qed.

Lemma wait_from_nil cs : ∀ i,
  wait_from i cs = [] → cs = replicate (length cs) [].
Proof.
  induction cs as [|[|m q] cs IH]; intros i; simpl; try done.
  intros H. f_equal. by eapply IH.
Qed.

Lemma recv_loop_drains cs data :
  ∃ ms, recv_loop cs data = Some (data ++ ms, replicate (length cs) [])
        ∧ drains cs ms (replicate (length cs) []).
Proof.
  funelim (recv_loop cs data).
  - exists []. rewrite app_nil_r.
    rewrite <- (wait_from_nil cs 0) by done. split; [done|constructor].
  - match goal with
    | IH : ∃ _, recv_loop _ _ = _ ∧ _ |- _ =>
        destruct IH as (ms2 & -> & Hd2)
    end.
    destruct (recv_each_drains _ _ _ _ _ Hr) as (ms1 & -> & Hd1).
    rewrite (drains_length _ _ _ Hd1) in *.
    exists (ms1 ++ ms2). split; [by rewrite app_assoc|].
    by eapply drains_app.
  - match goal with
    | Hw : wait ?cs = ?l, Hn : recv_each ?l ?cs ?d = None |- _ =>
        pose proof (recv_each_wait cs d) as Hx; rewrite Hw in Hx; congruence
    end.
Qed.

Lemma drains_single q ms : drains [q] ms [[]] → ms = q.
Proof.
  intros H. pose proof (drains_project (λ _, 0) [q] ms [[]] 0 H) as Hp.
  simpl in Hp. rewrite app_nil_r in Hp. rewrite <- Hp.
  - clear. induction ms as [|m ms IH]; [done|].
    by rewrite filter_cons_True, <- IH.
  - intros [|i] q'; simpl; [|done]. intros _. by apply Forall_forall.
Qed.

End DrainFacts.

(** ** The drain *)

Section DrainTheorems.
Context {A : Type}.
Implicit Types (cs : conns A).

Lemma recv_conns_drains cs :
  ∃ data, recv_conns cs = Some (data, replicate (length cs) [])
          ∧ drains cs data (replicate (length cs) []).
Proof.
  destruct (recv_loop_drains cs []) as (ms & H & Hd).
  exists ms. by split.
Qed.

Lemma concat_replicate_nil n : concat (replicate n (@nil A)) = [].
Proof. induction n; simpl; auto. Qed.

(** C4 (drain exhaustiveness). Whatever was sent on the N connections
    before the call, [recv_conns] returns, without blocking, a sequence
    [data] that holds exactly the pending messages, each once (it is a
    permutation of them), in which the messages of each connection appear
    in the order they were sent (under any labelling [tag] of the messages
    by their connection, the messages of [data] labelled [i] are the queue
    of connection [i]); every connection is left empty; and when nothing
    is pending [data] is empty. *)
Theorem recv_conns_exhaustive cs :
  ∃ data,
    recv_conns cs = Some (data, replicate (length cs) [])
    ∧ data ≡ₚ concat cs
    ∧ (∀ tag i q, labelled tag cs → cs !! i = Some q →
                  filter (λ m, tag m = i) data = q)
    ∧ (pending cs = 0 → data = []).
Proof.
  destruct (recv_conns_drains cs) as (data & H & Hd).
  exists data. split; [done|].
  assert (data ≡ₚ concat cs) as Hp.
  { apply drains_Permutation in Hd.
    by rewrite concat_replicate_nil, app_nil_r in Hd. }
  split; [done|]. split.
  - intros tag i q Hl Hi.
    pose proof (drains_project tag _ _ _ i Hd Hl) as Hx.
    rewrite Hi in Hx. simpl in Hx. rewrite <- Hx.
    destruct (replicate (length cs) [] !! i) as [q'|] eqn:E; simpl.
    + apply lookup_replicate in E as [-> _]. by rewrite app_nil_r.
    + by rewrite app_nil_r.
  - unfold pending. intros H0. apply Permutation_length in Hp.
    rewrite H0 in Hp. by destruct data.
Qed.

Lemma recv_conns_single (q : list A) : recv_conns [q] = Some (q, [[]]).
Proof.
  destruct (recv_conns_drains [q]) as (data & H & Hd). simpl in *.
  by rewrite (drains_single _ _ Hd) in H.
Qed.

Lemma recv_conns_none n :
  recv_conns (replicate n (@nil A)) = Some ([], replicate n []).
Proof.
  destruct (recv_conns_drains (replicate n [])) as (data & H & Hd).
  rewrite length_replicate in H, Hd. rewrite H.
  apply drains_Permutation, Permutation_length in Hd.
  rewrite !concat_replicate_nil, length_app in Hd. by destruct data.
Qed.

End DrainTheorems.

(** ** The head *)

Module HeadFacts.
Import MultiEnvHead.
Implicit Types (s : t) (data : list (nat * Q)).

Lemma received_nil i : received i [] = [].
Proof. done. Qed.

Lemma received_cons_eq i x data : received i ((i, x) :: data) = x :: received i data.
Proof. unfold received. by rewrite filter_cons_True. Qed.

Lemma received_cons_ne i j x data :
  j ≠ i → received i ((j, x) :: data) = received i data.
Proof. intros. unfold received. by rewrite filter_cons_False. Qed.

Lemma append_return_Some s j x l :
  returns s !! j = Some l →
  append_return (j, x) s = (set_returns <[j := l ++ [x]]> s, Ok tt).
Proof. intros H. unfold append_return, bind, gets. simpl. by rewrite H. Qed.

Lemma append_return_None s j x :
  returns s !! j = None → append_return (j, x) s = (s, Raised KeyError).
Proof. intros H. unfold append_return, bind, gets. simpl. by rewrite H. Qed.

Lemma for_each_append data : ∀ s,
  Forall (known s) data →
  ∃ r, for_each data append_return s = (set_returns (λ _, r) s, Ok tt)
       ∧ ∀ i, r !! i = (λ h, h ++ received i data) <$> returns s !! i.
Proof.
  induction data as [|[j x] data IH]; intros s Hk.
  - exists (returns s). split; [by destruct s|].
    intros i. destruct (returns s !! i); simpl; [|done].
    by rewrite app_nil_r.
  - inversion Hk as [|? ? [l Hl] Hk']; subst. simpl in Hl.
    set (s1 := set_returns <[j := l ++ [x]]> s).
    destruct (IH s1) as (r & Hr & Hlook).
    { eapply Forall_impl; [exact Hk'|]. intros m [h Hm]. unfold known.
      simpl. destruct (decide (j = m.1)) as [->|].
      - rewrite lookup_insert_eq. eauto.
      - rewrite lookup_insert_ne by done. eauto. }
    exists r. split.
    + cbn [for_each].
      rewrite (bind_Ok _ _ _ _ _ (append_return_Some _ _ _ _ Hl)).
      fold s1. by rewrite Hr.
    + intros i. rewrite Hlook. simpl.
      destruct (decide (j = i)) as [->|].
      * rewrite lookup_insert_eq, Hl, received_cons_eq. simpl.
        by rewrite <- app_assoc.
      * rewrite lookup_insert_ne, received_cons_ne by done. done.
Qed.

Lemma for_each_append_Ok data : ∀ s s',
  for_each data append_return s = (s', Ok tt) → Forall (known s) data.
Proof.
  induction data as [|[j x] data IH]; intros s s'; [by constructor|].
  cbn [for_each]. destruct (returns s !! j) as [l|] eqn:Hl.
  2: { unfold bind. by rewrite (append_return_None _ _ _ Hl). }
  rewrite (bind_Ok _ _ _ _ _ (append_return_Some _ _ _ _ Hl)).
  intros H%IH. constructor.
  - unfold known. simpl. eauto.
  - eapply Forall_impl; [exact H|]. intros m [h Hm]. unfold known in *.
    simpl in Hm. destruct (decide (j = m.1)) as [->|].
    + eauto.
    + by rewrite lookup_insert_ne in Hm by done.
Qed.

Lemma zip_with_set_to_head (l : list Pipe) :
  zip_with set_to_head (replicate (length l) []) l = set_to_head [] <$> l.
Proof. induction l as [|p l IH]; simpl; [done|]. by rewrite IH. Qed.

Lemma recv_locals_drains s :
  ∃ data,
    recv_conns (to_head <$> locals s)
    = Some (data, replicate (length (locals s)) [])
    ∧ drains (to_head <$> locals s) data (replicate (length (locals s)) [])
    ∧ recv_locals s = (set_locals (fmap (set_to_head [])) s, Ok data).
Proof.
  destruct (recv_conns_drains (to_head <$> locals s)) as (data & H & Hd).
  rewrite length_fmap in H, Hd. exists data. split; [done|]. split; [done|].
  unfold recv_locals. rewrite H. unfold set_locals.
  by rewrite zip_with_set_to_head.
Qed.

Lemma send_dist_from k : ∀ a s,
  a + k = length (locals s) →
  for_each (seq a k) send_dist_on s
  = (set_locals (λ l, take a l ++ (send (dist s) <$> drop a l)) s, Ok tt).
Proof.
  induction k as [|k IH]; intros a s Hlen.
  - destruct s as [W n cd l r d sr]. simpl in *. unfold ret, set_locals. simpl.
    rewrite take_ge, drop_ge by lia. simpl. by rewrite app_nil_r.
  - cbn [seq for_each].
    assert (send_dist_on a s
            = (set_locals (alter (send (dist s)) a) s, Ok tt)) as Hs by done.
    rewrite (bind_Ok _ _ _ _ _ Hs), IH
      by (simpl; rewrite length_alter; lia).
    destruct s as [W n cd l r d sr]. unfold set_locals. simpl in *.
    destruct (lookup_lt_is_Some_2 l a) as [p Hp]; [lia|].
    do 2 f_equal.
    rewrite (take_S_r _ _ (send d p))
      by (by rewrite list_lookup_alter_eq, Hp).
    rewrite drop_alter_lt, take_alter_ge by lia.
    rewrite (drop_S l p a Hp). simpl. by rewrite <- app_assoc.
Qed.

Lemma _send_dist_eq s :
  _send_dist s = (set_locals (fmap (send (dist s))) s, Ok tt).
Proof.
  unfold _send_dist, bind, gets. by rewrite send_dist_from.
Qed.

(** What one [update_dist] call does, in terms of the messages [data] it
    drains: it returns exactly when every message names a known task. *)
Lemma update_dist_spec s :
  ∃ data,
    recv_conns (to_head <$> locals s)
    = Some (data, replicate (length (locals s)) [])
    ∧ (Forall (known s) data →
       ∃ s', update_dist s = (s', Ok tt)
         ∧ num_menvs s' = num_menvs s
         ∧ num_envs s' = num_envs s
         ∧ compute_dist s' = compute_dist s
         ∧ (∀ i, returns s' !! i
                 = (λ h, slice_last (num_menvs s) (h ++ received i data))
                     <$> returns s !! i)
         ∧ (∀ i, synthesized_returns s' !! i
                 = match returns s !! i with
                   | Some h => match h ++ received i data with
                               | [] => None
                               | x :: l => Some (mean (x :: l))
                               end
                   | None => None
                   end)
         ∧ dist s' = match compute_dist s with
                     | Some f => f (synthesized_returns s')
                     | None => dist s
                     end
         ∧ locals s'
           = (λ p, mkPipe [] (to_menv p ++ [dist s'])) <$> locals s)
    ∧ (∀ s', update_dist s = (s', Ok tt) → Forall (known s) data).
Proof.
  destruct (recv_locals_drains s) as (data & Hrc & _ & Hrl).
  exists data. split; [done|]. split.
  - intros Hk.
    destruct (for_each_append data (set_locals (fmap (set_to_head [])) s) Hk)
      as (r & Hr & Hlook).
    assert (_recv_returns s
            = (set_returns (λ _, r)
                 (set_locals (fmap (set_to_head [])) s), Ok tt)) as Hrr.
    { unfold _recv_returns. by rewrite (bind_Ok _ _ _ _ _ Hrl). }
    unfold update_dist. rewrite (bind_Ok _ _ _ _ _ Hrr).
    unfold bind, _synthesize_returns, _trim_returns, gets, modify, ret.
    simpl.
    destruct (compute_dist s) as [f|] eqn:Hcd; simpl;
      rewrite _send_dist_eq;
      (eexists; split; [reflexivity|]); simpl; rewrite ?Hcd;
      (repeat split; try done).
    all: try (intros i; rewrite lookup_fmap, Hlook; simpl;
              by destruct (returns s !! i)).
    all: try (intros i; rewrite lookup_omap, Hlook; simpl;
              destruct (returns s !! i) as [h|]; simpl; [|done];
              by destruct (h ++ received i data)).
    all: by rewrite <- list_fmap_compose.
  - intros s' H.
    destruct (_recv_returns s) as [s1 [[]| |]] eqn:E.
    + unfold _recv_returns in E. rewrite (bind_Ok _ _ _ _ _ Hrl) in E.
      by apply for_each_append_Ok in E.
    + unfold update_dist, bind in H. by rewrite E in H.
    + unfold update_dist, bind in H. by rewrite E in H.
Qed.

(** [update_dist] returns whenever the messages waiting at the local ends
    all name known tasks. *)
Lemma update_dist_returns s :
  Forall (known s) (concat (to_head <$> locals s)) →
  ∃ s', update_dist s = (s', Ok tt).
Proof.
  intros Hk. destruct (update_dist_spec s) as (data & Hrc & Hok & _).
  destruct (recv_conns_drains (to_head <$> locals s)) as (data' & Hrc' & Hd).
  rewrite length_fmap, Hrc in Hrc'. injection Hrc' as <-.
  apply drains_Permutation in Hd.
  rewrite concat_replicate_nil, app_nil_r in Hd.
  destruct Hok as (s' & Hs & _); [by rewrite <- Hd|]. eauto.
Qed.

Lemma length_slice_last {A} k (l : list A) :
  1 ≤ k → k ≤ length l → length (slice_last k l) = k.
Proof. destruct k; [lia|]. simpl. rewrite length_drop. lia. Qed.

Lemma slice_last_all {A} (l : list A) : slice_last (length l) l = l.
Proof. unfold slice_last. destruct l; [done|]. by rewrite Nat.sub_diag. Qed.

Lemma lookup_init_returns (v : list Q) k : ∀ a i,
  (list_to_map ((λ env_id, (env_id, v)) <$> seq a k) : gmap nat (list Q)) !! i
  = if decide (a ≤ i < a + k) then Some v else None.
Proof.
  induction k as [|k IH]; intros a i; simpl.
  - rewrite lookup_empty. case_decide; [lia|done].
  - destruct (decide (a = i)) as [->|].
    + rewrite lookup_insert_eq. case_decide; [done|lia].
    + rewrite lookup_insert_ne, IH by done. repeat case_decide; try done; lia.
Qed.

(** What [__init__] builds. *)
Lemma init_spec W n cd :
  1 ≤ W →
  ∃ s, __init__ W n cd = (s, Ok tt)
    ∧ num_menvs s = W ∧ num_envs s = n ∧ compute_dist s = cd
    ∧ (∀ i, returns s !! i
            = if decide (i < n) then Some (replicate W 0%Q) else None)
    ∧ (∀ i, synthesized_returns s !! i
            = if decide (i < n) then Some (mean (replicate W 0%Q)) else None)
    ∧ dist s = match cd with
               | Some f => f (synthesized_returns s)
               | None => uniform n
               end
    ∧ locals s = replicate W (mkPipe [] [dist s]).
Proof.
  intros HW. destruct W as [|W]; [lia|].
  set (r0 := list_to_map ((λ env_id, (env_id, replicate (S W) 0%Q)) <$> seq 0 n)
             : gmap nat (list Q)).
  set (s0 := mk (S W) n cd (replicate (S W) (mkPipe [] [])) r0 (uniform n) ∅).
  assert (__init__ (S W) n cd = update_dist s0) as -> by done.
  destruct (update_dist_spec s0) as (data & Hrc & Hok & _).
  assert (data = []) as ->.
  { change (locals s0) with (replicate (S W) (mkPipe [] [])) in Hrc.
    rewrite fmap_replicate in Hrc.
    change (to_head (mkPipe [] [])) with (@nil (nat * Q)) in Hrc.
    rewrite recv_conns_none in Hrc. congruence. }
  destruct Hok as (s & Hs & HW' & Hn & Hcd & Hret & Hsyn & Hdist & Hloc);
    [constructor|].
  exists s. split; [done|]. repeat split; try done.
  - intros i. rewrite Hret.
    change (returns s0) with r0. change (num_menvs s0) with (S W).
    unfold r0. rewrite lookup_init_returns.
    case_decide; case_decide; try lia; [|done].
    cbn [fmap option_fmap option_map]. rewrite received_nil, app_nil_r.
    pose proof (slice_last_all (replicate (S W) 0%Q)) as Hsl.
    rewrite length_replicate in Hsl. by rewrite Hsl.
  - intros i. rewrite Hsyn. change (returns s0) with r0.
    unfold r0. rewrite lookup_init_returns.
    case_decide; case_decide; try lia; [|done].
    by rewrite received_nil, app_nil_r.
  - rewrite Hloc. change (locals s0) with (replicate (S W) (mkPipe [] [])).
    by rewrite fmap_replicate.
Qed.

Lemma init_Ok W n cd s : __init__ W n cd = (s, Ok tt) → 1 ≤ W.
Proof. destruct W; [done|lia]. Qed.

Lemma inv_init W n cd s : __init__ W n cd = (s, Ok tt) → inv s.
Proof.
  intros H. pose proof (init_Ok _ _ _ _ H) as HW.
  destruct (init_spec W n cd HW)
    as (s' & Hs & HW' & Hn & Hcd & Hret & Hsyn & Hdist & _).
  rewrite H in Hs. injection Hs as <-.
  unfold inv. rewrite HW', Hn, Hcd. split_and!.
  - done.
  - intros i. rewrite Hret. case_decide; [done|].
    split; [by intros [? ?]|lia].
  - intros i h. rewrite Hret. case_decide; [|done].
    intros [= <-]. by rewrite length_replicate.
  - intros i. rewrite Hsyn. case_decide; [done|].
    split; [by intros [? ?]|lia].
  - by destruct cd.
Qed.

Lemma inv_update_dist s s' : inv s → update_dist s = (s', Ok tt) → inv s'.
Proof.
  intros (HW & Hdom & Hlen & _ & Hd) H.
  destruct (update_dist_spec s) as (data & _ & Hok & Hk).
  destruct (Hok (Hk _ H))
    as (s'' & Hs & HW' & Hn & Hcd & Hret & Hsyn & Hdist & _).
  rewrite H in Hs. injection Hs as <-.
  unfold inv. rewrite HW', Hn, Hcd. split_and!.
  - done.
  - intros i. by rewrite Hret, <- Hdom, fmap_is_Some.
  - intros i h. rewrite Hret.
    destruct (returns s !! i) as [h0|] eqn:E; simpl; [|done].
    intros [= <-]. apply length_slice_last; [done|].
    rewrite length_app, (Hlen _ _ E). lia.
  - intros i. rewrite Hsyn, <- Hdom.
    destruct (returns s !! i) as [h|] eqn:E; [|done].
    pose proof (Hlen _ _ E) as Hl.
    destruct h as [|x h]; simpl in *; [lia|]. split; eauto.
  - rewrite Hdist. destruct (compute_dist s); [done|]. by rewrite Hd.
Qed.

Lemma reachable_inv W n cd s : reachable W n cd s → inv s.
Proof.
  induction 1 as [s H|s s' _ IH H|s i m _ IH|s i _ IH].
  - by eapply inv_init.
  - by eapply inv_update_dist.
  - exact IH.
  - exact IH.
Qed.

(** The constructor's arguments are never reassigned. *)
Lemma reachable_args W n cd s :
  reachable W n cd s →
  num_menvs s = W ∧ num_envs s = n ∧ compute_dist s = cd.
Proof.
  induction 1 as [s H|s s' _ IH H|s i m _ IH|s i _ IH]; try exact IH.
  - pose proof (init_Ok _ _ _ _ H) as HW.
    destruct (init_spec W n cd HW) as (s' & Hs & ? & ? & ? & _).
    rewrite H in Hs. by injection Hs as <-.
  - destruct (update_dist_spec s) as (data & _ & Hok & Hk).
    destruct (Hok (Hk _ H)) as (s'' & Hs & HW' & Hn & Hcd & _).
    rewrite H in Hs. injection Hs as <-.
    destruct IH as (<- & <- & <-). done.
Qed.

Lemma lookup_uniform n i :
  i < n → uniform n !! i = Some (1 / inject_Z (Z.of_nat n))%Q.
Proof.
  intros Hi. unfold uniform.
  by rewrite list_lookup_fmap, lookup_replicate_2.
Qed.

(** [numpy.mean] is the arithmetic mean: the sum over the count. *)
Lemma mean_arithmetic (l : list Q) :
  l ≠ [] → (mean l * inject_Z (Z.of_nat (length l)) == sum_list l)%Q.
Proof.
  intros Hl. unfold mean. field.
  destruct l as [|x l]; [done|]. simpl length.
  rewrite Nat2Z.inj_succ. unfold Qeq. simpl. lia.
Qed.

(** *** The claims about the head *)

(** C1, as the code has it. A head constructed with [num_menvs >= 1]
    holds, for every task id below [num_envs], a history of [num_menvs]
    zeros (not an empty one); its distribution is the uniform one, [1 /
    num_envs] at every task id, when no [compute_dist] was given, and
    otherwise what [compute_dist] returned on the synthesized returns of
    the first cycle. *)
Theorem init_history_zeros W n cd i :
  1 ≤ W → i < n →
  ∃ s, __init__ W n cd = (s, Ok tt)
    ∧ returns s !! i = Some (replicate W 0%Q)
    ∧ (cd = None →
       dist s = uniform n
       ∧ dist s !! i = Some (1 / inject_Z (Z.of_nat n))%Q)
    ∧ (∀ f, cd = Some f → dist s = f (synthesized_returns s)).
Proof.
  intros HW Hi.
  destruct (init_spec W n cd HW)
    as (s & Hs & _ & _ & _ & Hret & _ & Hdist & _).
  exists s. split_and!; [done| | |].
  - rewrite Hret. by case_decide.
  - intros ->. rewrite Hdist. split; [done|]. by apply lookup_uniform.
  - by intros f ->.
Qed.

(** C2 (history bound). In every state of a head, whatever was received,
    the history of every task id has at most [num_menvs] items. *)
Theorem history_bounded W n cd s i h :
  reachable W n cd s → returns s !! i = Some h → length h ≤ W.
Proof.
  intros Hr Hh. destruct (reachable_args _ _ _ _ Hr) as (<- & _ & _).
  destruct (reachable_inv _ _ _ _ Hr) as (_ & _ & Hlen & _).
  by rewrite (Hlen _ _ Hh).
Qed.

(** C5 (synthesized returns). An [update_dist] call that drains the
    messages [data] leaves in [synthesized_returns], for a task id whose
    history, with the returns just received appended and before trimming,
    is not empty, the arithmetic mean of that history, that is the sum of
    its items over their number, and no entry for a task id whose history
    is empty (or that has none). *)
Theorem synthesized_returns_mean s data cs i :
  recv_conns (to_head <$> locals s) = Some (data, cs) →
  Forall (known s) data →
  ∃ s', update_dist s = (s', Ok tt)
    ∧ synthesized_returns s' !! i
      = match returns s !! i with
        | Some h =>
            if decide (h ++ received i data = []) then None
            else Some (foldr Qplus 0 (h ++ received i data)
                       / inject_Z (Z.of_nat (length (h ++ received i data))))%Q
        | None => None
        end.
Proof.
  intros Hrc Hk. destruct (update_dist_spec s) as (data' & Hrc' & Hok & _).
  rewrite Hrc in Hrc'. injection Hrc' as <- _.
  destruct (Hok Hk) as (s' & Hs & _ & _ & _ & _ & Hsyn & _).
  exists s'. split; [done|]. rewrite Hsyn.
  destruct (returns s !! i) as [h|]; [|done].
  by destruct (h ++ received i data).
Qed.

(** C6 (uniform default). A head constructed without [compute_dist]
    keeps, in every state, the uniform distribution it was constructed
    with: [1 / num_envs] at every task id. *)
Theorem dist_stays_uniform W n s i :
  reachable W n None s → i < n →
  dist s = uniform n ∧ dist s !! i = Some (1 / inject_Z (Z.of_nat n))%Q.
Proof.
  intros Hr Hi. destruct (reachable_args _ _ _ _ Hr) as (_ & Hn & Hcd).
  destruct (reachable_inv _ _ _ _ Hr) as (_ & _ & _ & _ & Hd).
  rewrite Hcd, Hn in Hd. rewrite Hd. split; [done|]. by apply lookup_uniform.
Qed.

(** C9 (broadcast). An [update_dist] call that returns has sent the
    distribution it ends with once on every local end, after what was
    already waiting there, whatever it received and whether or not the
    distribution changed. *)
Theorem update_dist_broadcasts s data cs :
  recv_conns (to_head <$> locals s) = Some (data, cs) →
  Forall (known s) data →
  ∃ s', update_dist s = (s', Ok tt)
    ∧ to_menv <$> locals s' = (λ p, to_menv p ++ [dist s']) <$> locals s.
Proof.
  intros Hrc Hk. destruct (update_dist_spec s) as (data' & Hrc' & Hok & _).
  rewrite Hrc in Hrc'. injection Hrc' as <- _.
  destruct (Hok Hk) as (s' & Hs & _ & _ & _ & _ & _ & _ & Hloc).
  exists s'. split; [done|]. rewrite Hloc. by rewrite <- list_fmap_compose.
Qed.

(** C10 (no partial mapping). In every state of a head (constructed,
    hence with [num_menvs >= 1]) every task id below [num_envs] has a
    non-empty history and an entry in [synthesized_returns], the mapping
    computed by the last [update_dist] call (the constructor's included)
    and the one [compute_dist] was applied to. *)
Theorem synthesized_returns_total W n cd s i :
  reachable W n cd s → i < n →
  1 ≤ W
  ∧ (∃ h, returns s !! i = Some h ∧ h ≠ [])
  ∧ is_Some (synthesized_returns s !! i)
  ∧ (∀ f, cd = Some f → dist s = f (synthesized_returns s)).
Proof.
  intros Hr Hi. destruct (reachable_args _ _ _ _ Hr) as (HW & Hn & Hcd).
  destruct (reachable_inv _ _ _ _ Hr) as (H1 & Hdom & Hlen & Hsyn & Hd).
  rewrite HW in *. rewrite Hn in *. rewrite Hcd in *. split_and!.
  - done.
  - apply Hdom in Hi as [h Hh]. exists h. split; [done|].
    intros ->. apply Hlen in Hh. simpl in Hh. lia.
  - by apply Hsyn.
  - by intros f ->.
Qed.

End HeadFacts.

(** ** A multi-environment *)

Module MenvFacts.
Import MultiEnv.
Section WithCollaborators.
Context {Env Obs Action Info RNG : Type}.
Variable env_reset : Env → Env * Obs.
Variable env_step : Env → Action → Env * (Obs * Q * bool * Info).
Variable choice : RNG → nat → list Q → option (nat * RNG).

Local Abbreviation menv := (@MultiEnv.t Env RNG).
Local Abbreviation reset := (MultiEnv.reset env_reset choice).
Local Abbreviation step := (MultiEnv.step env_step).
Local Abbreviation _select_env := (MultiEnv._select_env choice).
Local Abbreviation steps := (MultiEnv.steps env_step).
Local Abbreviation rewards_of := (MultiEnv.rewards_of env_step).
Implicit Types (w : menv).

Lemma recv_head_conn_eq w :
  recv_head_conn w
  = (set_head_conn (set_to_menv []) w, Ok (to_menv (head_conn w))).
Proof. unfold recv_head_conn. by rewrite recv_conns_single. Qed.

Lemma _recv_dist_eq w :
  _recv_dist w
  = (match last (to_menv (head_conn w)) with
     | Some d => set_dist (Some d) (set_head_conn (set_to_menv []) w)
     | None => set_head_conn (set_to_menv []) w
     end, Ok tt).
Proof.
  unfold _recv_dist. rewrite (bind_Ok _ _ _ _ _ (recv_head_conn_eq w)).
  by destruct (last (to_menv (head_conn w))).
Qed.

Ltac run :=
  repeat first
    [ rewrite _recv_dist_eq
    | progress (simpl in *; simplify_eq)
    | case_match ].

Lemma reset_to_head w :
  to_head (head_conn (reset w).1) = to_head (head_conn w) ++ sent_on_reset w.
Proof.
  unfold MultiEnv.reset, MultiEnv._select_env, _send_return, sent_on_reset,
    bind, gets, attr, envs_at, modify, raise, ret.
  destruct w as [es hc g n [r|] d [i|] e]; run; by rewrite ?app_nil_r.
Qed.

Lemma step_eq w a i e r :
  env w = Some i → envs w !! i = Some e → returnn w = Some r →
  step a w
  = (set_returnn (Some (r + reward_of (env_step e a))%Q)
       (set_envs <[i := (env_step e a).1]> w),
     Ok (env_step e a).2).
Proof.
  intros Hi He Hr. unfold MultiEnv.step, bind, attr, envs_at, gets, modify.
  rewrite Hi, He. unfold reward_of.
  destruct (env_step e a) as [e' [[[obs reward] done] info]]. simpl.
  by rewrite Hr.
Qed.

Lemma steps_accumulate actions : ∀ w i e r,
  env w = Some i → envs w !! i = Some e → returnn w = Some r →
  ∃ w1, steps actions w = (w1, Ok tt)
    ∧ returnn w1 = Some (foldl Qplus r (rewards_of e actions))
    ∧ env_id w1 = env_id w
    ∧ head_conn w1 = head_conn w.
Proof.
  induction actions as [|a actions IH]; intros w i e r Hi He Hr.
  - exists w. by split_and!.
  - pose proof (step_eq w a i e r Hi He Hr) as Hs.
    set (w' := set_returnn (Some (r + reward_of (env_step e a))%Q)
                 (set_envs <[i := (env_step e a).1]> w)) in Hs.
    destruct (IH w' i (env_step e a).1 (r + reward_of (env_step e a))%Q)
      as (w1 & Hw1 & Hret & Hid & Hhc); [done| |done|].
    { simpl. apply list_lookup_insert_eq. by eapply lookup_lt_Some. }
    exists w1. split_and!; try done.
    unfold steps. cbn [for_each].
    rewrite (bind_Ok _ _ w w' tt); [exact Hw1|].
    by rewrite (bind_Ok _ _ _ _ _ Hs).
Qed.

(** After a [reset] call that returned, so in particular once constructed,
    a multi-environment has a task, a distribution and the return 0. *)
Lemma reset_returned w w' obs :
  reset w = (w', Ok obs) →
  returnn w' = Some 0%Q ∧ is_Some (dist w')
  ∧ is_Some (env_id w') ∧ env w' = env_id w'.
Proof.
  unfold MultiEnv.reset, MultiEnv._select_env, _send_return,
    bind, gets, attr, envs_at, modify, raise, ret.
  destruct w as [es hc g n [r|] d [i|] e]; run;
    try (intros ?; simplify_eq/=); eauto.
Qed.

(** A [step] call that returned keeps the task. *)
Lemma step_returned w w' a x :
  step a w = (w', Ok x) →
  env_id w' = env_id w ∧ env w' = env w ∧ dist w' = dist w
  ∧ (is_Some (returnn w) → is_Some (returnn w')).
Proof.
  unfold MultiEnv.step, bind, gets, attr, envs_at, modify, raise, ret.
  destruct w as [es hc g n r d i e]; run;
    try (intros ?; simplify_eq/=); eauto.
Qed.

(** *** The claims about a multi-environment *)

(** C3 (latest wins). When distributions are waiting on [head_conn] at a
    [reset] call, the one sent last, [d], becomes [self.dist], the others
    are consumed and dropped, and the task is drawn with [d] as weights;
    when none is waiting, the distribution held before stays and is the
    one used. (The call returns provided numpy accepts the weights and
    the return of the previous episode, if any, has a task id to go
    with.) *)
Theorem reset_latest_wins w waiting d i g e :
  (to_menv (head_conn w) = waiting ++ [d]
   ∨ (to_menv (head_conn w) = [] ∧ dist w = Some d)) →
  (is_Some (returnn w) → is_Some (env_id w)) →
  choice (rng w) (num_envs w) d = Some (i, g) →
  envs w !! i = Some e →
  ∃ w', reset w = (w', Ok (env_reset e).2)
    ∧ dist w' = Some d
    ∧ to_menv (head_conn w') = []
    ∧ env_id w' = Some i ∧ env w' = Some i ∧ rng w' = g.
Proof.
  intros Hd Hwf Hc He.
  assert (last (to_menv (head_conn w)) = Some d ∨
          (last (to_menv (head_conn w)) = None ∧ dist w = Some d)) as Hl.
  { destruct Hd as [->|[-> ?]]; [left; apply last_snoc|by right]. }
  clear Hd.
  unfold MultiEnv.reset, MultiEnv._select_env, _send_return,
    bind, gets, attr, envs_at, modify, raise, ret.
  destruct w as [es hc gw n r dw iw ew]; simpl in *.
  destruct r as [r|], iw as [iw|];
    try (destruct Hwf as [? ?]; [by eauto|done]);
    destruct Hl as [Hl|[Hl ->]];
    repeat first [ rewrite _recv_dist_eq | rewrite Hl | rewrite Hc
                 | rewrite He | progress simpl ];
    destruct (env_reset e) as [e' obs]; simpl;
    eexists; (split; [reflexivity|]); by simpl.
Qed.

(** C7 (no return, no message). Constructing a multi-environment, which
    resets it for the first time, sends nothing to the head; and a [reset]
    call sends nothing when there is no return ([self.returnn] is
    [None]), and exactly the message [(env_id, returnn)] when there is
    one. This holds whether or not the call goes on to return. *)
Theorem reset_sends_return envs0 hc g w :
  to_head (head_conn (MultiEnv.__init__ env_reset choice envs0 hc g).1)
  = to_head hc
  ∧ (returnn w = None →
     to_head (head_conn (reset w).1) = to_head (head_conn w))
  ∧ (∀ r i, returnn w = Some r → env_id w = Some i →
     to_head (head_conn (reset w).1) = to_head (head_conn w) ++ [(i, r)]).
Proof.
  split_and!.
  - unfold MultiEnv.__init__. rewrite reset_to_head. simpl.
    by rewrite app_nil_r.
  - intros Hr. rewrite reset_to_head. unfold sent_on_reset.
    by rewrite Hr, app_nil_r.
  - intros r i Hr Hi. rewrite reset_to_head. unfold sent_on_reset.
    by rewrite Hr, Hi.
Qed.

(** C8 (return accumulation). A [step] call on a running episode adds the
    reward of the environment's step to [self.returnn] and returns what
    the environment returned, as it is; so after stepping along
    [actions], the next [reset] reports to the head the return at the
    start plus the rewards of these steps. *)
Theorem step_accumulates w i e r :
  env w = Some i → env_id w = Some i →
  envs w !! i = Some e → returnn w = Some r →
  (∀ a, ∃ w', step a w = (w', Ok (env_step e a).2)
          ∧ returnn w' = Some (r + reward_of (env_step e a))%Q)
  ∧ (∀ actions, ∃ w1,
       steps actions w = (w1, Ok tt)
       ∧ returnn w1 = Some (foldl Qplus r (rewards_of e actions))
       ∧ to_head (head_conn (reset w1).1)
         = to_head (head_conn w)
             ++ [(i, foldl Qplus r (rewards_of e actions))]).
Proof.
  intros Hi Hid He Hr. split.
  - intros a. eexists. split; [by apply step_eq|done].
  - intros actions.
    destruct (steps_accumulate actions w i e r Hi He Hr)
      as (w1 & Hw1 & Hret & Hid1 & Hhc).
    exists w1. split_and!; try done.
    rewrite reset_to_head, Hhc. unfold sent_on_reset.
    by rewrite Hret, Hid1, Hid.
Qed.

End WithCollaborators.
End MenvFacts.

(** * Scenarios *)

Module Scenarios.
Import MultiEnvHead Scripted.

Example uniform_4 : uniform 4 = [1 # 4; 1 # 4; 1 # 4; 1 # 4]%Q.
Proof. reflexivity. Qed.

Lemma head0_reachable : reachable 2 4 None head0.
Proof. apply reach_init. vm_compute. reflexivity. Qed.

Lemma head2_reachable : reachable 2 4 None head2.
Proof.
  apply reach_update_dist with (s := head1).
  - do 2 apply reach_remote_send. apply head0_reachable.
  - vm_compute. reflexivity.
Qed.

Lemma phead2_reachable : reachable 2 4 (Some (prefer 3 4)) phead2.
Proof.
  apply reach_update_dist with (s := phead1).
  - apply reach_remote_send, reach_init. vm_compute. reflexivity.
  - vm_compute. reflexivity.
Qed.

Lemma head1_known : Forall (known head1) [(3, 10%Q); (3, 4%Q)].
Proof. repeat constructor; by (vm_compute; eauto). Qed.

Example head2_ex :
  (returns head2 !! 3, synthesized_returns head2 !! 3, dist head2)
  = (Some [10; 4], Some (14 # 4), [1 # 4; 1 # 4; 1 # 4; 1 # 4])%Q.
Proof. vm_compute. reflexivity. Qed.

Example phead2_ex :
  (returns phead2 !! 3, dist phead2, to_menv <$> locals phead2)
  = (Some [0; 10], [0; 0; 0; 1],
     [[[0; 0; 0; 1]; [0; 0; 0; 1]]; [[0; 0; 0; 1]; [0; 0; 0; 1]]])%Q.
Proof. vm_compute. reflexivity. Qed.

(** C1 does not hold as stated: a head constructed for one
    multi-environment and one task holds the history [[0]] for task 0, not
    the empty one; and a head constructed with the scoring function
    [prefer 1 2] ends construction with the distribution [[0; 1]], not the
    uniform one. *)
Lemma init_history_not_empty :
  ((__init__ 1 1 None).2 = Ok tt
   ∧ returns (__init__ 1 1 None).1 !! 0 = Some [0%Q]
   ∧ returns (__init__ 1 1 None).1 !! 0 ≠ Some [])
  ∧ ((__init__ 1 2 (Some (prefer 1 2))).2 = Ok tt
     ∧ dist (__init__ 1 2 (Some (prefer 1 2))).1 = [0; 1]%Q
     ∧ dist (__init__ 1 2 (Some (prefer 1 2))).1 ≠ uniform 2).
Proof.
  split; split_and!; try (vm_compute; reflexivity); vm_compute; congruence.
Qed.

Lemma init_history_zeros_witness :
  1 ≤ 2 ∧ 1 < 4
  ∧ ∃ s, __init__ 2 4 None = (s, Ok tt)
      ∧ returns s !! 1 = Some [0; 0]%Q
      ∧ dist s = [1 # 4; 1 # 4; 1 # 4; 1 # 4]%Q.
Proof.
  split; [lia|]. split; [lia|].
  destruct (HeadFacts.init_history_zeros 2 4 None 1) as (s & Hs & Hr & Hd & _);
    [lia..|].
  exists s. split; [exact Hs|]. split; [exact Hr|].
  destruct (Hd eq_refl) as [Hu _]. exact Hu.
Defined.

Lemma history_bounded_witness :
  reachable 2 4 None head2
  ∧ returns head2 !! 3 = Some [10; 4]%Q
  ∧ length [10; 4]%Q ≤ 2.
Proof.
  split; [exact head2_reachable|]. split; [vm_compute; reflexivity|].
  apply (HeadFacts.history_bounded 2 4 None head2 3);
    [exact head2_reachable|vm_compute; reflexivity].
Defined.

Lemma synthesized_returns_mean_witness :
  recv_conns (to_head <$> locals head1)
  = Some ([(3, 10%Q); (3, 4%Q)], [[]; []])
  ∧ Forall (known head1) [(3, 10%Q); (3, 4%Q)]
  ∧ ∃ s', update_dist head1 = (s', Ok tt)
      ∧ synthesized_returns s' !! 3 = Some (14 # 4)%Q
      ∧ (14 # 4 == (0 + 0 + 10 + 4) / 4)%Q.
Proof.
  split; [vm_compute; reflexivity|]. split; [exact head1_known|].
  destruct (HeadFacts.synthesized_returns_mean head1
              [(3, 10%Q); (3, 4%Q)] [[]; []] 3) as (s' & Hs & Hsyn);
    [vm_compute; reflexivity|exact head1_known|].
  exists s'. split; [exact Hs|]. split; [|reflexivity].
  rewrite Hsyn. vm_compute. reflexivity.
Defined.

Lemma dist_stays_uniform_witness :
  reachable 2 4 None head2 ∧ 3 < 4
  ∧ dist head2 = [1 # 4; 1 # 4; 1 # 4; 1 # 4]%Q
  ∧ dist head2 !! 3 = Some (1 # 4)%Q.
Proof.
  split; [exact head2_reachable|]. split; [lia|].
  apply (HeadFacts.dist_stays_uniform 2 4 head2 3); [exact head2_reachable|lia].
Defined.

Lemma update_dist_broadcasts_witness :
  recv_conns (to_head <$> locals head1)
  = Some ([(3, 10%Q); (3, 4%Q)], [[]; []])
  ∧ Forall (known head1) [(3, 10%Q); (3, 4%Q)]
  ∧ ∃ s', update_dist head1 = (s', Ok tt)
      ∧ to_menv <$> locals s'
        = [[uniform 4; dist s']; [uniform 4; dist s']].
Proof.
  split; [vm_compute; reflexivity|]. split; [exact head1_known|].
  apply (HeadFacts.update_dist_broadcasts head1 [(3, 10%Q); (3, 4%Q)] [[]; []]);
    [vm_compute; reflexivity|exact head1_known].
Defined.

Lemma synthesized_returns_total_witness :
  reachable 2 4 (Some (prefer 3 4)) phead2 ∧ 1 < 4
  ∧ (∃ h, returns phead2 !! 1 = Some h ∧ h ≠ [])
  ∧ is_Some (synthesized_returns phead2 !! 1)
  ∧ dist phead2 = prefer 3 4 (synthesized_returns phead2).
Proof.
  split; [exact phead2_reachable|]. split; [lia|].
  destruct (HeadFacts.synthesized_returns_total
              2 4 (Some (prefer 3 4)) phead2 1 phead2_reachable)
    as (_ & Hh & Hs & Hd); [lia|].
  split; [exact Hh|]. split; [exact Hs|]. exact (Hd _ eq_refl).
Defined.

Lemma reset_latest_wins_witness :
  let w := MultiEnv.mk [[5]; [1; 2; 3]]%Q (mkPipe [] [[1; 0]; [0; 1]]%Q)
             0 2 None None None None in
  ∃ w', MultiEnv.reset env_reset choice w = (w', Ok 3)
    ∧ MultiEnv.dist w' = Some [0; 1]%Q
    ∧ to_menv (MultiEnv.head_conn w') = []
    ∧ MultiEnv.env_id w' = Some 1.
Proof.
  intros w.
  destruct (MenvFacts.reset_latest_wins env_reset choice w
              [[1; 0]%Q] [0; 1]%Q 1 1 [1; 2; 3]%Q)
    as (w' & Hr & Hd & Hq & Hi & _).
  - left. reflexivity.
  - intros [r Hr]. discriminate Hr.
  - vm_compute. reflexivity.
  - reflexivity.
  - exists w'. split; [exact Hr|]. split; [exact Hd|]. split; [exact Hq|].
    exact Hi.
Defined.

Example menv0_ex :
  (MultiEnv.env menv0, MultiEnv.env_id menv0, MultiEnv.returnn menv0,
   MultiEnv.dist menv0, MultiEnv.head_conn menv0)
  = (Some 1, Some 1, Some 0%Q, Some [0; 1]%Q, mkPipe [] []).
Proof. vm_compute. reflexivity. Qed.

(** The return reported after rewards 1, 2 and 3 is 6. *)
Lemma step_accumulates_witness :
  (∃ w', MultiEnv.step env_step tt menv0 = (w', Ok (2, 1%Q, false, tt))
     ∧ MultiEnv.returnn w' = Some 1%Q)
  ∧ to_head (MultiEnv.head_conn
       (MultiEnv.reset env_reset choice
          (MultiEnv.steps env_step [tt; tt; tt] menv0).1).1)
    = [(1, 6%Q)].
Proof.
  destruct (MenvFacts.step_accumulates env_reset env_step choice
              menv0 1 [1; 2; 3]%Q 0%Q) as [H1 H2];
    [vm_compute; reflexivity..|].
  split.
  - destruct (H1 tt) as (w' & Hs & Hr). exists w'.
    split; [exact Hs|exact Hr].
  - destruct (H2 [tt; tt; tt]) as (w1 & Hs & _ & Hsend).
    rewrite Hs. exact Hsend.
Defined.

Example fresh_menv_sends_nothing :
  to_head (MultiEnv.head_conn menv0) = [].
Proof. vm_compute. reflexivity. Qed.

End Scenarios.

(** * Further properties *)

(** ** The drain, round by round *)

Section DrainRounds.
Context {A : Type}.
Implicit Types (cs : conns A) (data ms : list A).

(** One turn of the loop: the oldest message of every connection that has
    one is taken. When nothing is waiting the turn changes nothing. *)
Lemma recv_loop_round cs data :
  recv_loop cs data = recv_loop (tail <$> cs) (data ++ omap head cs).
Proof.
  funelim (recv_loop cs data).
  - match goal with Hw : wait _ = [] |- _ =>
      pose proof (wait_from_nil _ _ Hw) as Hcs end.
    rewrite Hcs at 2 3. rewrite fmap_replicate. simpl.
    assert (omap head (replicate (length cs) (@nil A)) = []) as ->.
    { clear. induction (length cs); simpl; auto. }
    rewrite app_nil_r, <- Hcs. done.
  - match goal with
    | Hw : wait ?cs = ?l, Hr : recv_each ?l ?cs ?d = Some _ |- _ =>
        pose proof (recv_each_wait cs d) as Hx; rewrite Hw, Hr in Hx;
        injection Hx as -> ->
    end.
    done.
  - match goal with
    | Hw : wait ?cs = ?l, Hn : recv_each ?l ?cs ?d = None |- _ =>
        pose proof (recv_each_wait cs d) as Hx; rewrite Hw in Hx; congruence
    end.
Qed.

Lemma pending_tail cs : pending (tail <$> cs) + length (omap head cs) = pending cs.
Proof.
  unfold pending. induction cs as [|[|m q] cs IH]; [done|exact IH|].
  cbn [fmap list_fmap omap list_omap head tail concat]. simpl length.
  rewrite !length_app. simpl length. lia.
Qed.

(** What the loop adds to [data] does not depend on [data]. *)
Lemma recv_loop_prefix : ∀ k cs data ms c,
  pending cs < k →
  recv_loop cs [] = Some (ms, c) → recv_loop cs data = Some (data ++ ms, c).
Proof.
  induction k as [|k IH]; intros cs data ms c Hk; [lia|].
  destruct (decide (omap head cs = [])) as [Hnil|Hne].
  - destruct (recv_loop_drains cs []) as (ms' & H' & Hd).
    destruct (recv_loop_drains cs data) as (ms'' & H'' & Hd').
    apply drains_Permutation, Permutation_length in Hd, Hd'.
    rewrite concat_replicate_nil, app_nil_r in Hd, Hd'.
    pose proof (pending_tail cs) as Hp. rewrite Hnil in Hp.
    assert (pending cs = 0) as H0.
    { clear -Hnil. unfold pending.
      induction cs as [|[|m q] cs IH]; simpl in *; [done| |done].
      by apply IH. }
    unfold pending in H0. rewrite H0 in Hd, Hd'.
    destruct ms', ms''; try done. rewrite H', H''. simpl.
    intros [= <- <-]. by rewrite app_nil_r.
  - rewrite (recv_loop_round cs []), (recv_loop_round cs data). simpl.
    pose proof (pending_tail cs) as Hp.
    assert (0 < length (omap head cs)) by (destruct (omap head cs); simpl; [done|lia]).
    destruct (recv_loop (tail <$> cs) []) as [[ms0 c0]|] eqn:E0.
    2: { destruct (recv_loop_drains (tail <$> cs) []) as (? & ? & _).
         congruence. }
    rewrite (IH _ (omap head cs) ms0 c0) by (done || lia).
    intros [= <- <-].
    rewrite (IH _ (data ++ omap head cs) ms0 c0) by (done || lia).
    by rewrite app_assoc.
Qed.

(** X7 (round robin). [recv_conns] returns first the oldest message of
    every connection that has one, a connection after the other, and then
    what draining the rest of the queues returns: the second message of a
    connection comes after the first message of every other. *)
Theorem recv_conns_round_robin cs :
  ∃ rest,
    recv_conns cs = Some (omap head cs ++ rest, replicate (length cs) [])
    ∧ recv_conns (tail <$> cs) = Some (rest, replicate (length cs) []).
Proof.
  destruct (recv_conns_drains (tail <$> cs)) as (rest & Hr & _).
  rewrite length_fmap in Hr. exists rest. split; [|done].
  unfold recv_conns in *. rewrite recv_loop_round. simpl.
  by apply (recv_loop_prefix (S (pending (tail <$> cs)))); [lia|].
Qed.

(** X6 (nothing is read twice). What [recv_conns] has returned is gone
    from the connections: draining them again at once returns nothing. *)
Theorem recv_conns_twice cs :
  ∃ data cs',
    recv_conns cs = Some (data, cs') ∧ recv_conns cs' = Some ([], cs').
Proof.
  destruct (recv_conns_drains cs) as (data & H & _).
  exists data, (replicate (length cs) []). split; [done|].
  apply recv_conns_none.
Qed.

End DrainRounds.

(** ** The head: construction, errors, the window *)

Module HeadMore.
Import MultiEnvHead HeadFacts.
Implicit Types (s : t) (data : list (nat * Q)).

(** Appending stops at the first message that names an unknown task:
    the histories have grown by what came before it, and none was lost. *)
Lemma for_each_append_fail data : ∀ s,
  Exists (λ m, returns s !! m.1 = None) data →
  ∃ r, for_each data append_return s
       = (set_returns (λ _, r) s, Raised KeyError)
       ∧ ∀ i h, returns s !! i = Some h → ∃ h', r !! i = Some (h ++ h').
Proof.
  induction data as [|[j x] data IH]; intros s Hex; [by inversion Hex|].
  cbn [for_each]. destruct (returns s !! j) as [l|] eqn:Hl.
  - rewrite (bind_Ok _ _ _ _ _ (append_return_Some _ _ _ _ Hl)).
    destruct (IH (set_returns <[j := l ++ [x]]> s)) as (r & Hr & Hgrow).
    { inversion Hex as [? ? Hx|? ? Hx]; subst; [simpl in Hx; congruence|].
      eapply Exists_impl; [exact Hx|]. intros m Hm. simpl.
      destruct (decide (j = m.1)) as [->|]; [congruence|].
      by rewrite lookup_insert_ne. }
    exists r. split; [by rewrite Hr|].
    intros i h Hi. destruct (decide (j = i)) as [->|].
    + destruct (Hgrow i (l ++ [x])) as (h' & Hh'); [simpl; by rewrite lookup_insert_eq|].
      rewrite Hl in Hi. injection Hi as <-.
      exists ([x] ++ h'). by rewrite app_assoc.
    + apply Hgrow. simpl. by rewrite lookup_insert_ne.
  - exists (returns s). split.
    + unfold bind. rewrite (append_return_None _ _ _ Hl). by destruct s.
    + intros i h Hi. exists []. by rewrite app_nil_r.
Qed.

Lemma reachable_locals W n cd s :
  reachable W n cd s → length (locals s) = W.
Proof.
  induction 1 as [s H|s s' _ IH H|s i m _ IH|s i _ IH].
  - pose proof (init_Ok _ _ _ _ H) as HW.
    destruct (init_spec W n cd HW) as (s' & Hs & _ & _ & _ & _ & _ & _ & Hl).
    rewrite H in Hs. injection Hs as <-. by rewrite Hl, length_replicate.
  - destruct (update_dist_spec s) as (data & _ & Hok & Hk).
    destruct (Hok (Hk _ H)) as (s'' & Hs & _ & _ & _ & _ & _ & _ & Hl).
    rewrite H in Hs. injection Hs as <-. by rewrite Hl, length_fmap.
  - simpl. by rewrite length_alter.
  - simpl. by rewrite length_alter.
Qed.

Lemma sum_list_replicate_0 k : (sum_list (replicate k 0) == 0)%Q.
Proof.
  induction k as [|k IH]; simpl; [reflexivity|].
  unfold sum_list in *. simpl. rewrite IH. reflexivity.
Qed.

Lemma mean_replicate_0 k : (mean (replicate k 0) == 0)%Q.
Proof.
  unfold mean. rewrite sum_list_replicate_0. unfold Qdiv.
  apply Qmult_0_l.
Qed.

(** X1 (construction). A head cannot be constructed for no
    multi-environment: unpacking the pipes raises [ValueError] before any
    attribute but the arguments is set. For one or more, construction
    returns, with one pipe per multi-environment. *)
Theorem init_returns W n cd :
  match W with
  | 0 => __init__ W n cd = (blank W n cd, Raised ValueError)
  | S _ => ∃ s, __init__ W n cd = (s, Ok tt) ∧ length (locals s) = W
  end.
Proof.
  destruct W as [|W]; [done|].
  destruct (init_spec (S W) n cd) as (s & Hs & _ & _ & _ & _ & _ & _ & Hl);
    [lia|].
  exists s. split; [done|]. by rewrite Hl, length_replicate.
Qed.

(** X2 (unknown task). When a drained message names a task the head has
    no history for, [update_dist] raises [KeyError]. By then every waiting
    message has been consumed; the histories have only grown (they are not
    trimmed); the synthesized returns and the distribution are as before
    and nothing has been broadcast. *)
Theorem update_dist_unknown_task s data cs :
  recv_conns (to_head <$> locals s) = Some (data, cs) →
  Exists (λ m, returns s !! m.1 = None) data →
  ∃ s', update_dist s = (s', Raised KeyError)
    ∧ locals s' = set_to_head [] <$> locals s
    ∧ (∀ i h, returns s !! i = Some h →
              ∃ h', returns s' !! i = Some (h ++ h'))
    ∧ synthesized_returns s' = synthesized_returns s
    ∧ dist s' = dist s.
Proof.
  intros Hrc Hex.
  destruct (recv_locals_drains s) as (data' & Hrc' & _ & Hrl).
  rewrite Hrc in Hrc'. injection Hrc' as <- _.
  destruct (for_each_append_fail data
              (set_locals (fmap (set_to_head [])) s) Hex)
    as (r & Hr & Hgrow).
  exists (set_returns (λ _, r) (set_locals (fmap (set_to_head [])) s)).
  split; [|by split_and!].
  unfold update_dist, bind at 1, _recv_returns.
  by rewrite (bind_Ok _ _ _ _ _ Hrl), Hr.
Qed.

(** X3 (sliding window). In a state of a head, an [update_dist] call
    that receives [k] returns for a task pushes the [k] oldest items out of
    that task's history: the history after is the one before with the
    returns received appended and the first [k] items dropped. *)
Theorem history_window_slides W n cd s data cs i h :
  reachable W n cd s →
  recv_conns (to_head <$> locals s) = Some (data, cs) →
  Forall (known s) data →
  returns s !! i = Some h →
  ∃ s', update_dist s = (s', Ok tt)
    ∧ returns s' !! i
      = Some (drop (length (received i data)) (h ++ received i data)).
Proof.
  intros Hre Hrc Hk Hh.
  destruct (reachable_args _ _ _ _ Hre) as (HW & _ & _).
  destruct (reachable_inv _ _ _ _ Hre) as (H1 & _ & Hlen & _).
  destruct (update_dist_spec s) as (data' & Hrc' & Hok & _).
  rewrite Hrc in Hrc'. injection Hrc' as <- _.
  destruct (Hok Hk) as (s' & Hs & _ & _ & _ & Hret & _).
  exists s'. split; [done|]. rewrite Hret, Hh. simpl. f_equal.
  pose proof (Hlen _ _ Hh) as Hl. unfold slice_last.
  destruct (num_menvs s) as [|k] eqn:E; [lia|].
  f_equal. rewrite length_app. lia.
Qed.

(** X4 (shape of the state). In every state of a head the constructor's
    arguments are what they were, there is one pipe per multi-environment,
    the tasks with a history are exactly those below [num_envs], and every
    history has exactly [num_menvs] items. *)
Theorem head_shape W n cd s :
  reachable W n cd s →
  num_menvs s = W ∧ num_envs s = n ∧ compute_dist s = cd
  ∧ length (locals s) = W
  ∧ (∀ i, is_Some (returns s !! i) ↔ i < n)
  ∧ (∀ i h, returns s !! i = Some h → length h = W).
Proof.
  intros Hre.
  destruct (reachable_args _ _ _ _ Hre) as (HW & Hn & Hcd).
  destruct (reachable_inv _ _ _ _ Hre) as (_ & Hdom & Hlen & _).
  rewrite HW, Hn in *. split_and!; try done.
  by eapply reachable_locals.
Qed.

(** X5 (idle cycle). In a state of a head where no return is waiting,
    [update_dist] returns and leaves every history as it is; the
    synthesized return of every task is the arithmetic mean of its
    history, the sum of its items over their number. *)
Theorem update_dist_idle W n cd s :
  reachable W n cd s →
  Forall (λ p, to_head p = []) (locals s) →
  ∃ s', update_dist s = (s', Ok tt)
    ∧ returns s' = returns s
    ∧ ∀ i h, returns s !! i = Some h →
             synthesized_returns s' !! i
             = Some (foldr Qplus 0 h / inject_Z (Z.of_nat (length h)))%Q.
Proof.
  intros Hre Hq.
  destruct (reachable_args _ _ _ _ Hre) as (HW & _ & _).
  destruct (reachable_inv _ _ _ _ Hre) as (H1 & _ & Hlen & _).
  destruct (update_dist_spec s) as (data & Hrc & Hok & _).
  assert (to_head <$> locals s = replicate (length (locals s)) []) as Hcs.
  { clear -Hq. induction Hq as [|p l Hp _ IH]; [done|].
    by rewrite fmap_cons, Hp, IH. }
  rewrite Hcs, recv_conns_none in Hrc. injection Hrc as <-.
  destruct Hok as (s' & Hs & _ & _ & _ & Hret & Hsyn & _); [constructor|].
  exists s'. split; [done|]. split.
  - apply map_eq. intros i. rewrite Hret.
    destruct (returns s !! i) as [h|] eqn:Hh; [|done]. simpl.
    rewrite received_nil, app_nil_r. f_equal.
    rewrite <- (Hlen _ _ Hh). apply slice_last_all.
  - intros i h Hh. rewrite Hsyn, Hh, received_nil, app_nil_r.
    pose proof (Hlen _ _ Hh). destruct h; simpl in *; [lia|done].
Qed.

(** X8 (first synthesized returns). In the cycle that ends construction,
    the synthesized return of every task below [num_envs] is 0 and no
    other task has one: this mapping is what [compute_dist], when given,
    is first applied to. *)
Theorem init_synthesized_zero W n cd :
  1 ≤ W →
  ∃ s, __init__ W n cd = (s, Ok tt)
    ∧ (∀ i, i < n → ∃ q, synthesized_returns s !! i = Some q ∧ (q == 0)%Q)
    ∧ (∀ i, n ≤ i → synthesized_returns s !! i = None)
    ∧ (∀ f, cd = Some f → dist s = f (synthesized_returns s)).
Proof.
  intros HW.
  destruct (init_spec W n cd HW) as (s & Hs & _ & _ & _ & _ & Hsyn & Hd & _).
  exists s. split_and!; [done| | |].
  - intros i Hi. rewrite Hsyn. case_decide; [|lia].
    eexists. split; [done|]. apply mean_replicate_0.
  - intros i Hi. rewrite Hsyn. case_decide; [lia|done].
  - by intros f ->.
Qed.

End HeadMore.

(** ** A multi-environment: episodes, errors, what is kept *)

Module MenvMore.
Import MultiEnv MenvFacts.
Section WithCollaborators.
Context {Env Obs Action Info RNG Mode Frame : Type}.
Variable env_reset : Env → Env * Obs.
Variable env_step : Env → Action → Env * (Obs * Q * bool * Info).
Variable choice : RNG → nat → list Q → option (nat * RNG).
Variable env_render : Env → Mode → Env * Frame.

Local Abbreviation menv := (@MultiEnv.t Env RNG).
Local Abbreviation reset := (MultiEnv.reset env_reset choice).
Local Abbreviation step := (MultiEnv.step env_step).
Local Abbreviation render := (MultiEnv.render env_render).
Local Abbreviation steps := (MultiEnv.steps env_step).
Local Abbreviation rewards_of := (MultiEnv.rewards_of env_step).
Local Abbreviation reachable :=
  (MultiEnv.reachable env_reset env_step choice env_render).
Implicit Types (w : menv).

Ltac run :=
  repeat first
    [ rewrite _recv_dist_eq
    | progress (simpl in *; simplify_eq)
    | case_match ].

Lemma reset_returned_running w w' obs :
  reset w = (w', Ok obs) →
  ∃ i e d,
    env w' = Some i ∧ env_id w' = Some i ∧ envs w' !! i = Some e
    ∧ returnn w' = Some 0%Q ∧ dist w' = Some d
    ∧ num_envs w' = num_envs w ∧ length (envs w') = length (envs w)
    ∧ to_menv (head_conn w') = [].
Proof.
  unfold MultiEnv.reset, MultiEnv._select_env, _send_return,
    bind, gets, attr, envs_at, modify, raise, ret.
  destruct w as [es hc g n [r|] d [i|] e]; run;
    try (intros ?; simplify_eq/=);
    (do 3 eexists; split_and!; try done;
     [apply list_lookup_insert_eq; by eapply lookup_lt_Some
     |by rewrite length_insert]).
Qed.

Lemma running_step w a :
  running w →
  ∃ w' x, step a w = (w', Ok x) ∧ running w'
    ∧ head_conn w' = head_conn w ∧ rng w' = rng w
    ∧ dist w' = dist w ∧ env_id w' = env_id w.
Proof.
  intros (i & e & r & d & Hi & Hid & He & Hr & Hd & Hn).
  do 2 eexists. split; [by apply step_eq|]. split_and!; try done.
  exists i, (env_step e a).1. do 2 eexists. simpl.
  split_and!; try done.
  - apply list_lookup_insert_eq. by eapply lookup_lt_Some.
  - by rewrite length_insert.
Qed.

Lemma running_render w mode :
  running w →
  ∃ w' frame, render mode w = (w', Ok frame) ∧ running w'
    ∧ head_conn w' = head_conn w ∧ rng w' = rng w
    ∧ dist w' = dist w ∧ env_id w' = env_id w
    ∧ returnn w' = returnn w.
Proof.
  intros (i & e & r & d & Hi & Hid & He & Hr & Hd & Hn).
  unfold MultiEnv.render, bind, attr, envs_at, modify, ret.
  rewrite Hi, He. destruct (env_render e mode) as [e' frame] eqn:E.
  do 2 eexists. split; [done|]. split_and!; try done.
  exists i, e', r, d. simpl. split_and!; try done.
  - apply list_lookup_insert_eq. by eapply lookup_lt_Some.
  - by rewrite length_insert.
Qed.

Lemma reachable_running w : reachable w → running w.
Proof.
  induction 1 as [es hc g w obs H|w a w' x _ IH H|w w' obs _ IH H
                 |w mode w' frame _ IH H|w d _ IH|w _ IH].
  - apply reset_returned_running in H
      as (i & e & d & ? & ? & ? & ? & ? & Hn & Hl & _).
    exists i, e, 0%Q, d. split_and!; try done.
    simpl in *. by rewrite Hn, Hl.
  - destruct (running_step w a IH) as (w1 & x1 & Hs & Hrun & _).
    rewrite H in Hs. by injection Hs as <- _.
  - destruct IH as (_ & _ & _ & _ & _ & _ & _ & _ & _ & Hn0).
    apply reset_returned_running in H
      as (i & e & d & ? & ? & ? & ? & ? & Hn & Hl & _).
    exists i, e, 0%Q, d. split_and!; try done. by rewrite Hn, Hl.
  - destruct (running_render w mode IH) as (w1 & f1 & Hs & Hrun & _).
    rewrite H in Hs. by injection Hs as <- _.
  - exact IH.
  - exact IH.
Qed.

(** X9 (no distribution yet). Constructing a multi-environment on a pipe
    where no distribution is waiting fails: the read of [self.dist] ends in
    [RecursionError]. The return was set to 0, nothing was sent to the
    head, nothing was drawn and no environment was chosen. *)
Theorem init_without_dist envs0 hc g :
  to_menv hc = [] →
  MultiEnv.__init__ env_reset choice envs0 hc g
  = (MultiEnv.mk envs0 hc g (length envs0) (Some 0%Q) None None None,
     Raised RecursionError).
Proof.
  intros Hq. destruct hc as [th tm]. simpl in Hq. subst tm.
  unfold MultiEnv.__init__, MultiEnv.reset, MultiEnv._select_env,
    _send_return, bind, gets, attr, modify, ret.
  by run.
Qed.

(** X13 (an episode's return). After a [reset] call that returned, which
    drew task [i], stepping along [actions] and resetting again sends the
    head exactly [(i, the sum of the rewards of these steps)]. *)
Theorem episode_return_reported w w1 obs actions :
  reset w = (w1, Ok obs) →
  ∃ i e w2,
    env_id w1 = Some i ∧ envs w1 !! i = Some e
    ∧ steps actions w1 = (w2, Ok tt)
    ∧ to_head (head_conn (reset w2).1)
      = to_head (head_conn w1) ++ [(i, foldl Qplus 0%Q (rewards_of e actions))].
Proof.
  intros H. apply reset_returned_running in H
    as (i & e & d & Hi & Hid & He & Hr & _).
  destruct (steps_accumulate env_step actions w1 i e 0%Q Hi He Hr)
    as (w2 & Hs & Hret & Hid2 & Hhc).
  exists i, e, w2. split_and!; try done.
  rewrite (reset_to_head env_reset choice), Hhc. unfold sent_on_reset.
  by rewrite Hret, Hid2, Hid.
Qed.

(** X14 (steps never fail). In every state of a constructed
    multi-environment a [step] call returns; it leaves the pipe, the
    generator, the distribution and the task id as they are. *)
Theorem step_never_raises w a :
  reachable w →
  ∃ w' x, step a w = (w', Ok x)
    ∧ head_conn w' = head_conn w ∧ rng w' = rng w
    ∧ dist w' = dist w ∧ env_id w' = env_id w.
Proof.
  intros Hre. destruct (running_step w a (reachable_running w Hre))
    as (w' & x & Hs & _ & Hrest).
  by exists w', x.
Qed.

(** X15 (render). In every state of a constructed multi-environment a
    [render] call returns what the current environment renders and leaves
    the return so far, the pipe, the generator, the distribution and the
    task id as they are. *)
Theorem render_never_raises w mode :
  reachable w →
  ∃ i e w',
    env w = Some i ∧ envs w !! i = Some e
    ∧ render mode w = (w', Ok (env_render e mode).2)
    ∧ returnn w' = returnn w ∧ head_conn w' = head_conn w
    ∧ rng w' = rng w ∧ dist w' = dist w ∧ env_id w' = env_id w.
Proof.
  intros Hre. pose proof (reachable_running w Hre) as Hrun.
  destruct Hrun as (i & e & r & d & Hi & Hid & He & Hr & Hd & Hn).
  exists i, e. unfold MultiEnv.render, bind, attr, envs_at, modify, ret.
  rewrite Hi, He. destruct (env_render e mode) as [e' frame].
  eexists. by split_and!.
Qed.

(** X17 (shape of the state). In every state of a constructed
    multi-environment there are a return so far and a distribution, the
    current environment is the item of [envs] at [env_id], and [num_envs]
    is the number of environments. *)
Theorem menv_shape w : reachable w → running w.
Proof. apply reachable_running. Qed.

(** X16 (weights rejected). When numpy rejects the distribution a [reset]
    call samples from, the call raises [ValueError]; by then the return of
    the last episode has been sent, the return so far is 0 again, the
    distribution is the rejected one, and the task is still the previous
    one. *)
Theorem reset_weights_rejected w d :
  reachable w →
  active w = Some d →
  choice (rng w) (num_envs w) d = None →
  ∃ w', reset w = (w', Raised ValueError)
    ∧ to_head (head_conn w') = to_head (head_conn w) ++ sent_on_reset w
    ∧ returnn w' = Some 0%Q
    ∧ dist w' = Some d
    ∧ env_id w' = env_id w ∧ env w' = env w ∧ envs w' = envs w.
Proof.
  intros Hre Hact Hc. pose proof (reachable_running w Hre) as Hrun.
  destruct Hrun as (i & e & r & d0 & Hi & Hid & He & Hr & Hd & Hn).
  unfold active in Hact.
  unfold MultiEnv.reset, MultiEnv._select_env, _send_return, sent_on_reset,
    bind, gets, attr, envs_at, modify, raise, ret.
  destruct w as [es hc gw n rw dw iw ew]; simpl in *. subst.
  destruct (last (to_menv hc)) as [d'|] eqn:El; simplify_eq/=;
    repeat first [ rewrite _recv_dist_eq | rewrite El | rewrite Hc
                 | progress simpl ];
    eexists; by split_and!.
Qed.

(** A [reset] call returns as soon as numpy accepts the distribution it
    samples from and draws a task that [envs] has. *)
Lemma reset_samples w d i g e :
  active w = Some d →
  (is_Some (returnn w) → is_Some (env_id w)) →
  choice (rng w) (num_envs w) d = Some (i, g) →
  envs w !! i = Some e →
  ∃ w', reset w = (w', Ok (env_reset e).2)
    ∧ dist w' = Some d ∧ env_id w' = Some i
    ∧ to_menv (head_conn w') = []
    ∧ to_head (head_conn w') = to_head (head_conn w) ++ sent_on_reset w.
Proof.
  intros Hact Hwf Hc He. unfold active in Hact.
  unfold MultiEnv.reset, MultiEnv._select_env, _send_return, sent_on_reset,
    bind, gets, attr, envs_at, modify, raise, ret.
  destruct w as [es hc gw n r dw iw ew]; simpl in *.
  destruct r as [r|], iw as [iw|];
    try (destruct Hwf as [? ?]; [by eauto|done]);
    destruct (last (to_menv hc)) as [d'|] eqn:El; simplify_eq/=;
    repeat first [ rewrite _recv_dist_eq | rewrite El | rewrite Hc
                 | rewrite He | progress simpl ];
    destruct (env_reset e) as [e' obs]; simpl;
    eexists; (split; [reflexivity|]); simpl; by rewrite ?app_nil_r.
Qed.

End WithCollaborators.
End MenvMore.

(** ** The head and a multi-environment on one pipe *)

Module SystemFacts.
Section WithCollaborators.
Context {Env Obs RNG : Type}.
Variable env_reset : Env → Env * Obs.
Variable choice : RNG → nat → list Q → option (nat * RNG).

Local Abbreviation menv := (@MultiEnv.t Env RNG).
Local Abbreviation reset := (MultiEnv.reset env_reset choice).
Implicit Types (w : menv) (s : MultiEnvHead.t).

Lemma concat_insert_replicate {A} (x : list A) m : ∀ k,
  k < m → concat (<[k := x]> (replicate m [])) = x.
Proof.
  induction m as [|m IH]; intros [|k] Hk; simpl; try lia.
  - by rewrite concat_replicate_nil, app_nil_r.
  - apply IH. lia.
Qed.

(** X10 (from broadcast to sample). The distribution an [update_dist]
    call ends with is the one the next [reset] of a multi-environment on
    any of the head's pipes samples from and keeps, whatever older
    distributions were still waiting on that pipe. *)
Theorem broadcast_reaches_reset s s' k p w i g e :
  MultiEnvHead.update_dist s = (s', Ok tt) →
  MultiEnvHead.locals s' !! k = Some p →
  MultiEnv.head_conn w = p →
  (is_Some (MultiEnv.returnn w) → is_Some (MultiEnv.env_id w)) →
  choice (MultiEnv.rng w) (MultiEnv.num_envs w) (MultiEnvHead.dist s')
  = Some (i, g) →
  MultiEnv.envs w !! i = Some e →
  ∃ w', reset w = (w', Ok (env_reset e).2)
    ∧ MultiEnv.dist w' = Some (MultiEnvHead.dist s')
    ∧ MultiEnv.env_id w' = Some i.
Proof.
  intros Hu Hp Hhc Hwf Hc He.
  destruct (HeadFacts.update_dist_spec s) as (data & _ & Hok & Hk).
  destruct (Hok (Hk _ Hu)) as (s'' & Hs & _ & _ & _ & _ & _ & _ & Hloc).
  rewrite Hu in Hs. injection Hs as <-.
  rewrite Hloc, list_lookup_fmap in Hp.
  destruct (MultiEnvHead.locals s !! k) as [p0|]; [|done].
  simpl in Hp. injection Hp as <-.
  destruct (MenvMore.reset_samples env_reset choice w
              (MultiEnvHead.dist s') i g e) as (w' & Hr & Hd & Hi & _);
    try done.
  - unfold MultiEnv.active. rewrite Hhc. simpl. by rewrite last_snoc.
  - by exists w'.
Qed.

(** X11 (construction order). A head is constructed with a distribution
    already waiting on every pipe, so a multi-environment constructed on
    any of them afterwards samples from the head's initial distribution,
    returns if numpy accepts it, and has sent nothing. *)
Theorem constructed_menv_samples W n cd k envs0 g :
  1 ≤ W → k < W →
  ∃ s p,
    MultiEnvHead.__init__ W n cd = (s, Ok tt)
    ∧ MultiEnvHead.locals s !! k = Some p
    ∧ ∀ i g' e,
        choice g (length envs0) (MultiEnvHead.dist s) = Some (i, g') →
        envs0 !! i = Some e →
        ∃ w, MultiEnv.__init__ env_reset choice envs0 p g
             = (w, Ok (env_reset e).2)
          ∧ MultiEnv.dist w = Some (MultiEnvHead.dist s)
          ∧ MultiEnv.env_id w = Some i
          ∧ to_head (MultiEnv.head_conn w) = [].
Proof.
  intros HW Hk.
  destruct (HeadFacts.init_spec W n cd HW)
    as (s & Hs & _ & _ & _ & _ & _ & _ & Hloc).
  exists s, (mkPipe [] [MultiEnvHead.dist s]). split; [done|]. split.
  - rewrite Hloc. by apply lookup_replicate_2.
  - intros i g' e Hc He. unfold MultiEnv.__init__.
    destruct (MenvMore.reset_samples env_reset choice
                (MultiEnv.mk envs0 (mkPipe [] [MultiEnvHead.dist s]) g
                   (length envs0) None None None None)
                (MultiEnvHead.dist s) i g' e)
      as (w & Hr & Hd & Hi & _ & Hth); try done.
    + by intros [? ?].
    + by exists w.
Qed.

(** X12 (from report to history). Take a state of a head where no return
    is waiting, and a multi-environment on one of its pipes that ends an
    episode of task [i] with return [r]. After that [reset], the head's
    next [update_dist] returns; it has put [r] at the end of the history of
    task [i] and dropped the oldest item there, and it has left every other
    history as it was. *)
Theorem return_reaches_history W n cd s k p w r i h :
  MultiEnvHead.reachable W n cd s →
  Forall (λ p, to_head p = []) (MultiEnvHead.locals s) →
  MultiEnvHead.locals s !! k = Some p →
  MultiEnv.head_conn w = p →
  MultiEnv.returnn w = Some r →
  MultiEnv.env_id w = Some i →
  MultiEnvHead.returns s !! i = Some h →
  ∃ s',
    MultiEnvHead.update_dist
      (MultiEnvHead.set_locals <[k := MultiEnv.head_conn (reset w).1]> s)
    = (s', Ok tt)
    ∧ MultiEnvHead.returns s' !! i = Some (drop 1 h ++ [r])
    ∧ ∀ j, j ≠ i → MultiEnvHead.returns s' !! j = MultiEnvHead.returns s !! j.
Proof.
  intros Hre Hq Hp Hhc Hr Hi Hh.
  destruct (HeadFacts.reachable_args _ _ _ _ Hre) as (HW & _ & _).
  destruct (HeadFacts.reachable_inv _ _ _ _ Hre) as (H1 & _ & Hlen & _).
  set (p' := MultiEnv.head_conn (reset w).1).
  set (s1 := MultiEnvHead.set_locals <[k := p']> s).
  assert (to_head p' = [(i, r)]) as Hp'.
  { unfold p'. rewrite (MenvFacts.reset_to_head env_reset choice).
    unfold MultiEnv.sent_on_reset. rewrite Hr, Hi, Hhc.
    rewrite Forall_lookup in Hq. by rewrite (Hq _ _ Hp). }
  assert (to_head <$> MultiEnvHead.locals s1
          = <[k := [(i, r)]]> (replicate (length (MultiEnvHead.locals s)) []))
    as Hcs.
  { simpl. rewrite list_fmap_insert, Hp'. f_equal.
    clear -Hq. induction Hq as [|q l Hq0 _ IH]; [done|].
    by rewrite fmap_cons, Hq0, IH. }
  destruct (HeadFacts.update_dist_spec s1) as (data & Hrc & Hok & _).
  assert (data = [(i, r)]) as ->.
  { destruct (recv_conns_drains (to_head <$> MultiEnvHead.locals s1))
      as (data' & Hrc' & Hd).
    rewrite length_fmap, Hrc in Hrc'. injection Hrc' as <-.
    apply drains_Permutation in Hd.
    rewrite concat_replicate_nil, app_nil_r, Hcs in Hd.
    rewrite concat_insert_replicate in Hd by (by eapply lookup_lt_Some).
    by apply Permutation_singleton_l in Hd. }
  destruct Hok as (s' & Hs & _ & _ & _ & Hret & _).
  { constructor; [|constructor]. unfold MultiEnvHead.known. simpl. eauto. }
  exists s'. split; [done|]. split.
  - rewrite Hret. simpl. rewrite Hh. simpl. f_equal.
    rewrite HeadFacts.received_cons_eq, HeadFacts.received_nil.
    pose proof (Hlen _ _ Hh) as Hl. unfold slice_last.
    destruct (MultiEnvHead.num_menvs s) as [|m]; [lia|].
    rewrite length_app. simpl.
    replace (length h + 1 - S m) with 1 by lia.
    destruct h; simpl in *; [lia|done].
  - intros j Hj. rewrite Hret. simpl.
    destruct (MultiEnvHead.returns s !! j) as [hj|] eqn:Ej; [|done]. simpl.
    rewrite HeadFacts.received_cons_ne, HeadFacts.received_nil,
      app_nil_r by done.
    f_equal. rewrite <- (Hlen _ _ Ej). apply HeadFacts.slice_last_all.
Qed.

End WithCollaborators.
End SystemFacts.

(** ** Further scenarios *)

Module MoreScenarios.
Import Scripted.

Local Abbreviation sreachable :=
  (MultiEnv.reachable env_reset env_step choice env_render).

Lemma menv0_reachable : sreachable menv0.
Proof.
  apply MultiEnv.reach_init
    with (envs0 := [[5]; [1; 2; 3]]%Q) (hc := mkPipe [] [[1; 0]; [0; 1]]%Q)
         (g := 0) (obs := 3).
  vm_compute. reflexivity.
Qed.

Lemma head0_quiet :
  Forall (λ p, to_head p = []) (MultiEnvHead.locals head0).
Proof. repeat constructor. Qed.

Lemma update_dist_unknown_task_witness :
  ∃ s', MultiEnvHead.update_dist head_bad = (s', Raised KeyError)
    ∧ MultiEnvHead.returns s' !! 3 = Some [0; 0; 10]%Q
    ∧ to_menv <$> MultiEnvHead.locals s' = [[uniform 4]; [uniform 4]].
Proof.
  destruct (HeadMore.update_dist_unknown_task head_bad
              [(3, 10%Q); (9, 1%Q)] [[]; []])
    as (s' & Hs & Hl & _ & _ & _).
  - vm_compute. reflexivity.
  - apply Exists_cons_tl, Exists_cons_hd. vm_compute. reflexivity.
  - exists s'. split; [exact Hs|]. split.
    + assert (s' = (MultiEnvHead.update_dist head_bad).1) as ->
        by (by rewrite Hs).
      vm_compute. reflexivity.
    + rewrite Hl. vm_compute. reflexivity.
Defined.

Lemma history_window_slides_witness :
  ∃ s', MultiEnvHead.update_dist head1 = (s', Ok tt)
    ∧ MultiEnvHead.returns s' !! 3 = Some [10; 4]%Q.
Proof.
  apply (HeadMore.history_window_slides 2 4 None head1
           [(3, 10%Q); (3, 4%Q)] [[]; []] 3 [0; 0]%Q).
  - do 2 apply MultiEnvHead.reach_remote_send. apply Scenarios.head0_reachable.
  - vm_compute. reflexivity.
  - exact Scenarios.head1_known.
  - vm_compute. reflexivity.
Defined.

Lemma head_shape_witness :
  MultiEnvHead.num_menvs head2 = 2 ∧ MultiEnvHead.num_envs head2 = 4
  ∧ MultiEnvHead.compute_dist head2 = None
  ∧ length (MultiEnvHead.locals head2) = 2
  ∧ (∀ i, is_Some (MultiEnvHead.returns head2 !! i) ↔ i < 4)
  ∧ (∀ i h, MultiEnvHead.returns head2 !! i = Some h → length h = 2).
Proof. exact (HeadMore.head_shape 2 4 None head2 Scenarios.head2_reachable). Defined.

Lemma head2_quiet :
  Forall (λ p, to_head p = []) (MultiEnvHead.locals head2).
Proof. vm_compute. repeat constructor. Qed.

Lemma update_dist_idle_witness :
  MultiEnvHead.returns head2 !! 3 = Some [10; 4]%Q
  ∧ ∃ s', MultiEnvHead.update_dist head2 = (s', Ok tt)
      ∧ MultiEnvHead.returns s' = MultiEnvHead.returns head2
      ∧ MultiEnvHead.synthesized_returns s' !! 3 = Some (14 # 2)%Q
      ∧ (14 # 2 == (10 + 4) / 2)%Q.
Proof.
  split; [vm_compute; reflexivity|].
  destruct (HeadMore.update_dist_idle 2 4 None head2
              Scenarios.head2_reachable head2_quiet) as (s' & Hs & Hr & Hsyn).
  exists s'. split; [exact Hs|]. split; [exact Hr|]. split; [|reflexivity].
  rewrite (Hsyn 3 [10; 4]%Q) by (vm_compute; reflexivity).
  vm_compute. reflexivity.
Defined.

Lemma init_synthesized_zero_witness :
  ∃ s, MultiEnvHead.__init__ 2 4 (Some (prefer 3 4)) = (s, Ok tt)
    ∧ (∃ q, MultiEnvHead.synthesized_returns s !! 3 = Some q ∧ (q == 0)%Q)
    ∧ MultiEnvHead.dist s = [0; 0; 0; 1]%Q.
Proof.
  destruct (HeadMore.init_synthesized_zero 2 4 (Some (prefer 3 4)))
    as (s & Hs & Hz & _ & Hd); [lia|].
  exists s. split; [exact Hs|]. split; [apply Hz; lia|].
  rewrite (Hd _ eq_refl). unfold prefer.
  destruct (Hz 3) as (q & -> & _); [lia|]. reflexivity.
Defined.

Lemma init_without_dist_witness :
  MultiEnv.__init__ env_reset choice [[5]; [1; 2; 3]]%Q (mkPipe [] []) 0
  = (MultiEnv.mk [[5]; [1; 2; 3]]%Q (mkPipe [] []) 0 2
       (Some 0%Q) None None None,
     Raised RecursionError).
Proof.
  apply (MenvMore.init_without_dist env_reset choice). reflexivity.
Defined.

Lemma broadcast_reaches_reset_witness :
  ∃ w', MultiEnv.reset env_reset choice
          (menv_on (mkPipe [] [[0; 0; 0; 1]; [0; 0; 0; 1]]%Q))
        = (w', Ok 2)
    ∧ MultiEnv.dist w' = Some [0; 0; 0; 1]%Q
    ∧ MultiEnv.env_id w' = Some 3.
Proof.
  apply (SystemFacts.broadcast_reaches_reset env_reset choice
           phead1 phead2 0 (mkPipe [] [[0; 0; 0; 1]; [0; 0; 0; 1]]%Q)
           (menv_on (mkPipe [] [[0; 0; 0; 1]; [0; 0; 0; 1]]%Q))
           3 1 [4; 5]%Q).
  - vm_compute. reflexivity.
  - vm_compute. reflexivity.
  - reflexivity.
  - intros _. by eexists.
  - vm_compute. reflexivity.
  - reflexivity.
Defined.

Lemma constructed_menv_samples_witness :
  ∃ s p,
    MultiEnvHead.__init__ 2 2 (Some (prefer 1 2)) = (s, Ok tt)
    ∧ MultiEnvHead.locals s !! 1 = Some p
    ∧ ∃ w, MultiEnv.__init__ env_reset choice [[5]; [1; 2; 3]]%Q p 0
           = (w, Ok 3)
        ∧ MultiEnv.env_id w = Some 1
        ∧ to_head (MultiEnv.head_conn w) = [].
Proof.
  destruct (SystemFacts.constructed_menv_samples env_reset choice
              2 2 (Some (prefer 1 2)) 1 [[5]; [1; 2; 3]]%Q 0)
    as (s & p & Hs & Hp & Hw); [lia..|].
  exists s, p. split; [exact Hs|]. split; [exact Hp|].
  assert (s = (MultiEnvHead.__init__ 2 2 (Some (prefer 1 2))).1) as Es
    by (by rewrite Hs).
  destruct (Hw 1 1 [1; 2; 3]%Q) as (w & Hi & _ & Hid & Hth).
  - rewrite Es. vm_compute. reflexivity.
  - reflexivity.
  - exists w. split; [exact Hi|]. split; [exact Hid|exact Hth].
Defined.

Lemma return_reaches_history_witness :
  ∃ s',
    MultiEnvHead.update_dist
      (MultiEnvHead.set_locals
         <[0 := MultiEnv.head_conn
                  (MultiEnv.reset env_reset choice
                     (menv_on (mkPipe [] [uniform 4]))).1]> head0)
    = (s', Ok tt)
    ∧ MultiEnvHead.returns s' !! 1 = Some [0; 6]%Q
    ∧ MultiEnvHead.returns s' !! 2 = Some [0; 0]%Q.
Proof.
  destruct (SystemFacts.return_reaches_history env_reset choice
              2 4 None head0 0 (mkPipe [] [uniform 4])
              (menv_on (mkPipe [] [uniform 4])) 6%Q 1 [0; 0]%Q)
    as (s' & Hs & H1 & Ho).
  - exact Scenarios.head0_reachable.
  - exact head0_quiet.
  - vm_compute. reflexivity.
  - reflexivity.
  - reflexivity.
  - reflexivity.
  - vm_compute. reflexivity.
  - exists s'. split; [exact Hs|]. split; [exact H1|].
    rewrite (Ho 2) by lia. vm_compute. reflexivity.
Defined.

Lemma episode_return_reported_witness :
  ∃ w2,
    MultiEnv.steps env_step [tt; tt; tt] menv0 = (w2, Ok tt)
    ∧ to_head (MultiEnv.head_conn (MultiEnv.reset env_reset choice w2).1)
      = [(1, 6%Q)].
Proof.
  destruct (MenvMore.episode_return_reported env_reset env_step choice
              (MultiEnv.mk [[5]; [1; 2; 3]]%Q (mkPipe [] [[1; 0]; [0; 1]]%Q)
                 0 2 None None None None)
              menv0 3 [tt; tt; tt])
    as (i & e & w2 & Hi & He & Hs & Hsend).
  - vm_compute. reflexivity.
  - exists w2. split; [exact Hs|].
    assert (i = 1) as -> by (vm_compute in Hi; congruence).
    assert (e = [1; 2; 3]%Q) as -> by (vm_compute in He; congruence).
    exact Hsend.
Defined.

Lemma step_never_raises_witness :
  ∃ w' x, MultiEnv.step env_step tt menv0 = (w', Ok x)
    ∧ MultiEnv.head_conn w' = MultiEnv.head_conn menv0
    ∧ MultiEnv.rng w' = MultiEnv.rng menv0
    ∧ MultiEnv.dist w' = MultiEnv.dist menv0
    ∧ MultiEnv.env_id w' = MultiEnv.env_id menv0.
Proof.
  exact (MenvMore.step_never_raises env_reset env_step choice env_render
           menv0 tt menv0_reachable).
Defined.

Lemma render_never_raises_witness :
  ∃ w', MultiEnv.render env_render tt menv0 = (w', Ok 3)
    ∧ MultiEnv.returnn w' = Some 0%Q.
Proof.
  destruct (MenvMore.render_never_raises env_reset env_step choice env_render
              menv0 tt menv0_reachable)
    as (i & e & w' & Hi & He & Hr & Hret & _).
  exists w'. split.
  - assert (i = 1) as -> by (vm_compute in Hi; congruence).
    assert (e = [1; 2; 3]%Q) as -> by (vm_compute in He; congruence).
    exact Hr.
  - rewrite Hret. vm_compute. reflexivity.
Defined.

Lemma menv_shape_witness : MultiEnv.running menv0.
Proof.
  exact (MenvMore.menv_shape env_reset env_step choice env_render
           menv0 menv0_reachable).
Defined.

Lemma reset_weights_rejected_witness :
  ∃ w', MultiEnv.reset env_reset choice (MultiEnv.head_send [0; 0]%Q menv0)
        = (w', Raised ValueError)
    ∧ to_head (MultiEnv.head_conn w') = [(1, 0%Q)]
    ∧ MultiEnv.dist w' = Some [0; 0]%Q
    ∧ MultiEnv.env_id w' = Some 1.
Proof.
  destruct (MenvMore.reset_weights_rejected env_reset env_step choice
              env_render (MultiEnv.head_send [0; 0]%Q menv0) [0; 0]%Q)
    as (w' & Hr & Hth & _ & Hd & Hid & _).
  - apply MultiEnv.reach_head_send, menv0_reachable.
  - vm_compute. reflexivity.
  - vm_compute. reflexivity.
  - exists w'. split; [exact Hr|]. split; [|split; [exact Hd|]].
    + rewrite Hth. vm_compute. reflexivity.
    + rewrite Hid. vm_compute. reflexivity.
Defined.

End MoreScenarios.
